(** * node-midi input binding (src/input.cpp): bridge and port lifecycle

    A shallow embedding of [NodeMidiInput]: the object state is a record,
    every C++ member function is a function on that record, and every
    call that crosses the object's boundary (driver, thread-safe
    function, consumer handler, allocator) is appended to a trace. *)

From Stdlib Require Import ZArith QArith List String Bool Lia.
From Stdlib.Strings Require Import Byte.
From stdpp Require Import base option list gmap strings.

Local Open Scope Z_scope.

(** ** Values that cross the JavaScript boundary *)

(** A C++ [double] / JavaScript number: the code never computes on one,
    it only converts an index to [unsigned int]. *)
Inductive double : Type :=
| NaN
| Infinity (negative : bool)
| Finite (q : Q).

Inductive JsValue : Type :=
| JsUndefined
| JsNull
| JsBoolean (b : bool)
| JsNumber (d : double)
| JsString (s : string)
| JsFunction (f : nat)
| JsBuffer (bs : list byte).

Inductive ErrorClass : Type := ClsError | ClsTypeError | ClsRangeError.

Record JsError : Type := mkJsError { err_class : ErrorClass; err_message : string }.

(** What a bound method hands back to the JavaScript caller: a value, or
    the exception left pending by [ThrowAsJavaScriptException]. *)
Inductive Completion : Type :=
| Return (v : JsValue)
| Throw (e : JsError).

Definition two32 : Z := 2 ^ 32.

(** Modelled from the spec: the conversion behind
    [unsigned int portNumber = info[0].ToNumber()] lives in napi.h, which
    is not under src/.  A finite number is truncated toward zero and then
    reduced modulo 2^32; the non-finite numbers give 0. *)
Definition ToUint32 (d : double) : Z :=
  match d with
  | Finite q => (Z.quot (Qnum q) (Z.pos (Qden q))) mod two32
  | _ => 0
  end.

Definition NumberOfZ (z : Z) : double := Finite (inject_Z z).

(** ** Messages of the thrown errors, and the error kinds they stand for *)

Definition msg_not_initialised : string := "RtMidi not initialised".
Definition msg_expected_callback : string := "Expected a callback".
Definition msg_failed_init : string := "Failed to initialise RtMidi".
Definition msg_must_be_integer : string := "First argument must be an integer".
Definition msg_must_be_string : string := "First argument must be a string".
Definition msg_must_be_boolean : string := "Arguments must be boolean".
Definition msg_invalid_port : string := "Invalid MIDI port number".
Definition msg_internal : string := "Internal RtMidi error".

Inductive ErrorKind : Type :=
| NotInitialized
| InvalidArgument
| OutOfRange
| DriverError
| ConstructionFailure.

Definition errorKind (e : JsError) : option ErrorKind :=
  let m := err_message e in
  if String.eqb m msg_not_initialised then Some NotInitialized
  else if String.eqb m msg_internal then Some DriverError
  else if String.eqb m msg_invalid_port then Some OutOfRange
  else if String.eqb m msg_failed_init then Some ConstructionFailure
  else if String.eqb m msg_must_be_integer || String.eqb m msg_must_be_string
          || String.eqb m msg_must_be_boolean || String.eqb m msg_expected_callback
       then Some InvalidArgument
  else None.

(** ** The device handle *)

(** Modelled from the spec: [RtMidiIn] is declared in RtMidi.h, which is
    not under src/.  The endpoint is described by what it answers: how
    many ports there are, the name of a port ([None] when the driver
    raises [RtMidiError]), and whether opening succeeds. *)
Record Device : Type := mkDevice {
  dev_init : bool;
  dev_portCount : Z;
  dev_portName : Z -> option string;
  dev_openPort : Z -> bool;
  dev_openVirtualPort : string -> bool
}.

Record RtMidiIn : Type := mkRtMidiIn {
  device : Device;
  connected : bool;
  usingCallback : bool;
  ignoreFlags : bool * bool * bool
}.

Module Driver.

Definition create (d : Device) : option RtMidiIn :=
  if dev_init d then Some (mkRtMidiIn d false false (true, true, true)) else None.

Definition getPortCount (h : RtMidiIn) : Z := dev_portCount (device h) mod two32.

Definition getPortName (n : Z) (h : RtMidiIn) : option string :=
  dev_portName (device h) n.

Definition setCallback (h : RtMidiIn) : RtMidiIn :=
  mkRtMidiIn (device h) (connected h) true (ignoreFlags h).

Definition cancelCallback (h : RtMidiIn) : RtMidiIn :=
  mkRtMidiIn (device h) (connected h) false (ignoreFlags h).

Definition openPort (n : Z) (h : RtMidiIn) : option RtMidiIn :=
  if dev_openPort (device h) n
  then Some (mkRtMidiIn (device h) true (usingCallback h) (ignoreFlags h))
  else None.

Definition openVirtualPort (name : string) (h : RtMidiIn) : option RtMidiIn :=
  if dev_openVirtualPort (device h) name
  then Some (mkRtMidiIn (device h) true (usingCallback h) (ignoreFlags h))
  else None.

Definition closePort (h : RtMidiIn) : RtMidiIn :=
  mkRtMidiIn (device h) false (usingCallback h) (ignoreFlags h).

Definition isPortOpen (h : RtMidiIn) : bool := connected h.

Definition ignoreTypes (sysex timing sensing : bool) (h : RtMidiIn) : RtMidiIn :=
  mkRtMidiIn (device h) (connected h) (usingCallback h) (sysex, timing, sensing).

End Driver.

(** ** The thread-safe function and the heap of envelopes *)

(** Modelled from the spec: [TSFN_t] is an instantiation of
    [Napi::TypedThreadSafeFunction] (napi.h, not under src/): an
    unbounded FIFO of [MidiMessage*] that the consumer's event loop
    empties one item at a time into [CallbackJs], until it is aborted.
    The member [handleMessage] is [None] when no function is behind it:
    none was created yet, or the aborted one has been finalized and
    deleted; a call through it then aborts the process. *)
Record TSFN : Type := mkTSFN {
  tsfn_callback : option nat;
  tsfn_closing : bool;
  tsfn_queue : list nat
}.

(** [MidiMessage] (input.h, not under src/) as the code fills it, and the
    byte array it points to. *)
Inductive HeapObj : Type :=
| HMidiMessage (deltaTime : double) (message : option nat) (messageLength : nat)
| HBytes (bs : list byte).

Inductive Event : Type :=
| EvTsfnNew
| EvSetCallback
| EvOpenPort (n : Z)
| EvOpenVirtualPort (name : string)
| EvClosePort
| EvCancelCallback
| EvTsfnAbort
| EvTsfnRelease
| EvIgnoreTypes (sysex timing sensing : bool)
| EvHandleReset
| EvCall (f : nat) (deltaTime : double) (payload : list byte)
| EvDeleteArray (a : nat)
| EvDelete (a : nat).

(** ** The object *)

Record NodeMidiInput : Type := mkInput {
  handle : option RtMidiIn;
  configured : bool;
  handleMessage : option TSFN;
  emitMessage : option nat;
  heap : gmap nat HeapObj;
  brk : nat;
  trace : list Event;
  freed : bool
}.

Definition with_handle (h : option RtMidiIn) (s : NodeMidiInput) : NodeMidiInput :=
  mkInput h (configured s) (handleMessage s) (emitMessage s) (heap s) (brk s) (trace s) (freed s).
Definition with_configured (b : bool) (s : NodeMidiInput) : NodeMidiInput :=
  mkInput (handle s) b (handleMessage s) (emitMessage s) (heap s) (brk s) (trace s) (freed s).
Definition with_handleMessage (t : option TSFN) (s : NodeMidiInput) : NodeMidiInput :=
  mkInput (handle s) (configured s) t (emitMessage s) (heap s) (brk s) (trace s) (freed s).
Definition with_heap (m : gmap nat HeapObj) (s : NodeMidiInput) : NodeMidiInput :=
  mkInput (handle s) (configured s) (handleMessage s) (emitMessage s) m (brk s) (trace s) (freed s).
Definition with_brk (n : nat) (s : NodeMidiInput) : NodeMidiInput :=
  mkInput (handle s) (configured s) (handleMessage s) (emitMessage s) (heap s) n (trace s) (freed s).
Definition emit (es : list Event) (s : NodeMidiInput) : NodeMidiInput :=
  mkInput (handle s) (configured s) (handleMessage s) (emitMessage s) (heap s) (brk s)
          (trace s ++ es) (freed s).
Definition with_freed (b : bool) (s : NodeMidiInput) : NodeMidiInput :=
  mkInput (handle s) (configured s) (handleMessage s) (emitMessage s) (heap s) (brk s)
          (trace s) b.

Definition throw (c : ErrorClass) (m : string) (s : NodeMidiInput)
  : Completion * NodeMidiInput := (Throw (mkJsError c m), s).

Definition tsfn_abort (t : option TSFN) : option TSFN :=
  match t with
  | Some f => Some (mkTSFN (tsfn_callback f) true (tsfn_queue f))
  | None => None
  end.

(** [NodeMidiInput::NodeMidiInput] *)
Definition constructor (d : Device) (info : list JsValue) : Completion * NodeMidiInput :=
  let blank := mkInput None false None None ∅ 0%nat [] false in
  match info with
  | JsFunction f :: _ =>
      match Driver.create d with
      | Some h =>
          (Return JsUndefined, mkInput (Some h) false None (Some f) ∅ 0%nat [] false)
      | None => throw ClsError msg_failed_init blank
      end
  | _ => throw ClsError msg_expected_callback blank
  end.

(** [NodeMidiInput::setupCallback]; its callers have checked [handle]. *)
Definition setupCallback (s : NodeMidiInput) : NodeMidiInput :=
  if configured s then s
  else
    let s1 := with_configured true s in
    let s2 := emit [EvTsfnNew]
                (with_handleMessage (Some (mkTSFN (emitMessage s1) false [])) s1) in
    emit [EvSetCallback] (with_handle (Driver.setCallback <$> handle s2) s2).

(** [NodeMidiInput::closePortAndRemoveCallback] *)
Definition closePortAndRemoveCallback (s : NodeMidiInput) : NodeMidiInput :=
  match handle s with
  | None => s
  | Some h =>
      let s1 := emit [EvClosePort] (with_handle (Some (Driver.closePort h)) s) in
      if configured s1 then
        let s2 := with_configured false s1 in
        let s3 := emit [EvCancelCallback]
                    (with_handle (Driver.cancelCallback <$> handle s2) s2) in
        let s4 := emit [EvTsfnAbort]
                    (with_handleMessage (tsfn_abort (handleMessage s3)) s3) in
        emit [EvTsfnRelease] s4
      else s1
  end.

(** [NodeMidiInput::~NodeMidiInput]: the body, after which the object's
    life is over.  What is left is not an object any more: its memory is
    freed, and whatever still reaches it through a stale pointer (the
    finalizer of the thread-safe function, the driver's user data) has
    undefined behaviour; see [sysStep]. *)
Definition destructor (s : NodeMidiInput) : NodeMidiInput :=
  let s1 := closePortAndRemoveCallback s in
  with_freed true
    match handle s1 with
    | Some _ => emit [EvHandleReset] (with_handle None s1)
    | None => s1
    end.

(** ** The bound methods

    [info.Length() == 0 || !info[0].IsNumber()] and its siblings are
    written as a match on the argument list: the first argument has the
    wanted type, or the type error is raised. *)

(** [NodeMidiInput::GetPortCount] *)
Definition GetPortCount (info : list JsValue) (s : NodeMidiInput)
  : Completion * NodeMidiInput :=
  match handle s with
  | None => throw ClsError msg_not_initialised s
  | Some h => (Return (JsNumber (NumberOfZ (Driver.getPortCount h))), s)
  end.

(** [NodeMidiInput::GetPortName] *)
Definition GetPortName (info : list JsValue) (s : NodeMidiInput)
  : Completion * NodeMidiInput :=
  match handle s with
  | None => throw ClsError msg_not_initialised s
  | Some h =>
      match info with
      | JsNumber d :: _ =>
          let portNumber := ToUint32 d in
          match Driver.getPortName portNumber h with
          | Some name => (Return (JsString name), s)
          | None => throw ClsTypeError msg_internal s
          end
      | _ => throw ClsTypeError msg_must_be_integer s
      end
  end.

(** [NodeMidiInput::OpenPort].  The driver call is logged when it is
    made, whether or not it then raises. *)
Definition OpenPort (info : list JsValue) (s : NodeMidiInput)
  : Completion * NodeMidiInput :=
  match handle s with
  | None => throw ClsError msg_not_initialised s
  | Some h =>
      match info with
      | JsNumber d :: _ =>
          let portNumber := ToUint32 d in
          if portNumber >=? Driver.getPortCount h
          then throw ClsRangeError msg_invalid_port s
          else
            let s1 := emit [EvOpenPort portNumber] (setupCallback s) in
            match handle s1 ≫= Driver.openPort portNumber with
            | Some h' => (Return JsNull, with_handle (Some h') s1)
            | None => throw ClsError msg_internal s1
            end
      | _ => throw ClsTypeError msg_must_be_integer s
      end
  end.

(** [NodeMidiInput::OpenVirtualPort] *)
Definition OpenVirtualPort (info : list JsValue) (s : NodeMidiInput)
  : Completion * NodeMidiInput :=
  match handle s with
  | None => throw ClsError msg_not_initialised s
  | Some h =>
      match info with
      | JsString name :: _ =>
          let s1 := emit [EvOpenVirtualPort name] (setupCallback s) in
          match handle s1 ≫= Driver.openVirtualPort name with
          | Some h' => (Return JsNull, with_handle (Some h') s1)
          | None => throw ClsError msg_internal s1
          end
      | _ => throw ClsTypeError msg_must_be_string s
      end
  end.

(** [NodeMidiInput::ClosePort] *)
Definition ClosePort (info : list JsValue) (s : NodeMidiInput)
  : Completion * NodeMidiInput :=
  match handle s with
  | None => throw ClsError msg_not_initialised s
  | Some _ => (Return JsNull, closePortAndRemoveCallback s)
  end.

(** [NodeMidiInput::Destroy] *)
Definition Destroy (info : list JsValue) (s : NodeMidiInput)
  : Completion * NodeMidiInput :=
  match handle s with
  | None => (Return JsNull, s)
  | Some _ =>
      let s1 := closePortAndRemoveCallback s in
      (Return JsNull, emit [EvHandleReset] (with_handle None s1))
  end.

(** [NodeMidiInput::IsPortOpen] *)
Definition IsPortOpen (info : list JsValue) (s : NodeMidiInput)
  : Completion * NodeMidiInput :=
  match handle s with
  | None => throw ClsError msg_not_initialised s
  | Some h => (Return (JsBoolean (Driver.isPortOpen h)), s)
  end.

(** [NodeMidiInput::IgnoreTypes] *)
Definition IgnoreTypes (info : list JsValue) (s : NodeMidiInput)
  : Completion * NodeMidiInput :=
  match handle s with
  | None => throw ClsError msg_not_initialised s
  | Some h =>
      match info with
      | [JsBoolean filter_sysex; JsBoolean filter_timing; JsBoolean filter_sensing] =>
          (Return JsNull,
           emit [EvIgnoreTypes filter_sysex filter_timing filter_sensing]
             (with_handle
                (Some (Driver.ignoreTypes filter_sysex filter_timing filter_sensing h)) s))
      | _ => throw ClsTypeError msg_must_be_boolean s
      end
  end.

(** ** The two halves of the bridge *)

(** [handleMessage.NonBlockingCall(data)]: the item joins the queue of a
    live function; a closing one refuses it and is left as it is.  The
    result is the function after the call; [None] is the process abort of
    a call with no function behind the member. *)
Definition NonBlockingCall (data : nat) (t : option TSFN) : option TSFN :=
  match t with
  | Some f =>
      if tsfn_closing f then Some f
      else Some (mkTSFN (tsfn_callback f) false (tsfn_queue f ++ [data]))
  | None => None
  end.

(** [NodeMidiInput::Callback], run by the driver thread with the driver's
    transient buffer [message].  The status that [NonBlockingCall]
    returns is ignored; [None] is the process abort inside that call. *)
Definition Callback (deltaTime : double) (message : list byte) (s : NodeMidiInput)
  : option NodeMidiInput :=
  let data := brk s in
  let messageLength := length message in
  let buf := S data in
  let hp := <[buf := HBytes (take messageLength message)]>
              (<[data := HMidiMessage deltaTime (Some buf) messageLength]> (heap s)) in
  t ← NonBlockingCall data (handleMessage s);
  Some (with_handleMessage (Some t) (with_brk (S buf) (with_heap hp s))).

(** [NodeMidiInput::CallbackJs], run on the consumer's thread.  [None] is
    undefined behaviour: a null or dangling pointer is dereferenced or
    freed. *)
Definition CallbackJs (env : bool) (callback : option nat) (data : option nat)
  (s : NodeMidiInput) : option NodeMidiInput :=
  s1 ← match env, callback with
       | true, Some f =>
           match data ≫= (heap s !!.) with
           | Some (HMidiMessage deltaTime (Some buf) messageLength) =>
               match heap s !! buf with
               | Some (HBytes bs) =>
                   if decide (messageLength ≤ length bs)%nat
                   then Some (emit [EvCall f deltaTime (take messageLength bs)] s)
                   else None
               | _ => None
               end
           | _ => None
           end
       | _, _ => Some s
       end;
  match data with
  | None => Some s1
  | Some p =>
      match heap s1 !! p with
      | Some (HMidiMessage _ message _) =>
          s2 ← match message with
               | None => Some s1
               | Some buf =>
                   match heap s1 !! buf with
                   | Some (HBytes _) =>
                       Some (emit [EvDeleteArray buf] (with_heap (delete buf (heap s1)) s1))
                   | _ => None
                   end
               end;
          Some (emit [EvDelete p] (with_heap (delete p (heap s2)) s2))
      | _ => None
      end
  end.

(** One turn of the consumer's event loop: the oldest queued item, if any,
    goes to [CallbackJs] with the live environment and the handler. *)
Definition dispatchOne (s : NodeMidiInput) : option NodeMidiInput :=
  match handleMessage s with
  | Some f =>
      if tsfn_closing f then Some s
      else
        match tsfn_queue f with
        | [] => Some s
        | p :: rest =>
            CallbackJs true (tsfn_callback f) (Some p)
              (with_handleMessage (Some (mkTSFN (tsfn_callback f) false rest)) s)
        end
  | None => Some s
  end.

Fixpoint dispatchN (n : nat) (s : NodeMidiInput) : option NodeMidiInput :=
  match n with
  | O => Some s
  | S k => dispatchOne s ≫= dispatchN k
  end.

Definition queueOf (s : NodeMidiInput) : list nat :=
  match handleMessage s with Some f => tsfn_queue f | None => [] end.

(** The loop runs until the queue is empty. *)
Definition drain (s : NodeMidiInput) : option NodeMidiInput :=
  dispatchN (length (queueOf s)) s.

(** What is left in the queue of an aborted function is handed to
    [CallbackJs] with neither environment nor handler; after that the
    function is deleted. *)
Fixpoint emptyQueue (q : list nat) (s : NodeMidiInput) : option NodeMidiInput :=
  match q with
  | [] => Some s
  | p :: rest => CallbackJs false None (Some p) s ≫= emptyQueue rest
  end.

Definition finalizeQueue (s : NodeMidiInput) : option NodeMidiInput :=
  match handleMessage s with
  | Some f =>
      if tsfn_closing f
      then with_handleMessage None <$>
             emptyQueue (tsfn_queue f)
               (with_handleMessage (Some (mkTSFN (tsfn_callback f) true [])) s)
      else Some s
  | None => Some s
  end.

(** ** Executions *)

Inductive BridgeStep : Type :=
| Deliver (deltaTime : double) (message : list byte)
| Dispatch.

Definition bridgeStep (b : BridgeStep) (s : NodeMidiInput) : option NodeMidiInput :=
  match b with
  | Deliver deltaTime message => Callback deltaTime message s
  | Dispatch => dispatchOne s
  end.

Fixpoint runBridge (bs : list BridgeStep) (s : NodeMidiInput) : option NodeMidiInput :=
  match bs with
  | [] => Some s
  | b :: rest => bridgeStep b s ≫= runBridge rest
  end.

Fixpoint delivered (bs : list BridgeStep) : list (double * list byte) :=
  match bs with
  | [] => []
  | Deliver deltaTime message :: rest => (deltaTime, message) :: delivered rest
  | Dispatch :: rest => delivered rest
  end.

(** The handler invocations recorded in a trace, oldest first. *)
Fixpoint calls (t : list Event) : list (nat * double * list byte) :=
  match t with
  | [] => []
  | EvCall f deltaTime payload :: rest => (f, deltaTime, payload) :: calls rest
  | _ :: rest => calls rest
  end.

Inductive Op : Type :=
| CallGetPortCount (info : list JsValue)
| CallGetPortName (info : list JsValue)
| CallOpenPort (info : list JsValue)
| CallOpenVirtualPort (info : list JsValue)
| CallClosePort (info : list JsValue)
| CallDestroy (info : list JsValue)
| CallIsPortOpen (info : list JsValue)
| CallIgnoreTypes (info : list JsValue)
| TsfnFinalizer.

Definition invoke (o : Op) (s : NodeMidiInput) : Completion * NodeMidiInput :=
  match o with
  | CallGetPortCount info => GetPortCount info s
  | CallGetPortName info => GetPortName info s
  | CallOpenPort info => OpenPort info s
  | CallOpenVirtualPort info => OpenVirtualPort info s
  | CallClosePort info => ClosePort info s
  | CallDestroy info => Destroy info s
  | CallIsPortOpen info => IsPortOpen info s
  | CallIgnoreTypes info => IgnoreTypes info s
  | TsfnFinalizer => (Return JsUndefined, closePortAndRemoveCallback s)
  end.

Fixpoint run (ops : list Op) (s : NodeMidiInput) : NodeMidiInput :=
  match ops with
  | [] => s
  | o :: rest => run rest (snd (invoke o s))
  end.

(** The events a call appended to the trace. *)
Definition emitted (s s' : NodeMidiInput) : list Event :=
  drop (length (trace s)) (trace s').

(** ** Reading the bridge off a trace *)

(** How many thread-safe functions are live and how many driver callback
    registrations are in place after an event. *)
Definition observe (v : nat * nat) (e : Event) : nat * nat :=
  match e with
  | EvTsfnNew => (S (fst v), snd v)
  | EvTsfnAbort => (Nat.pred (fst v), snd v)
  | EvSetCallback => (fst v, S (snd v))
  | EvCancelCallback => (fst v, Nat.pred (snd v))
  | _ => v
  end.

Definition bridgeAfter (t : list Event) : nat * nat := fold_left observe t (0%nat, 0%nat).

Definition armedView (v : nat * nat) : bool :=
  (0 <? fst v)%nat && (0 <? snd v)%nat.

Definition isOpenEvent (e : Event) : bool :=
  match e with
  | EvOpenPort _ | EvOpenVirtualPort _ => true
  | _ => false
  end.

(** A trace is well sequenced from a view when no thread-safe function is
    created while one is live, no driver callback is registered while one
    is in place, and every port is opened with both in place. *)
Fixpoint wellSequenced (v : nat * nat) (t : list Event) : bool :=
  match t with
  | [] => true
  | e :: rest =>
      match e with
      | EvTsfnNew => (fst v =? 0)%nat
      | EvSetCallback => (snd v =? 0)%nat
      | EvOpenPort _ | EvOpenVirtualPort _ => armedView v
      | _ => true
      end && wellSequenced (observe v e) rest
  end.

Definition b2n (b : bool) : nat := if b then 1%nat else 0%nat.

(** The flag, the driver registration and the thread-safe function agree. *)
Definition consistent (s : NodeMidiInput) : Prop :=
  match handle s with
  | Some h => usingCallback h = configured s
  | None => configured s = false
  end /\
  match handleMessage s with
  | Some f => tsfn_closing f = negb (configured s) /\ tsfn_callback f = emitMessage s
  | None => configured s = false
  end.

(** What every history of calls preserves: the state agrees with itself
    and with its trace, and the trace is well sequenced. *)
Definition lifecycleInv (s : NodeMidiInput) : Prop :=
  consistent s /\
  bridgeAfter (trace s) = (b2n (configured s), b2n (configured s)) /\
  wellSequenced (0%nat, 0%nat) (trace s) = true.

(** The bridge is armed: the thread-safe function exists and is not
    closing, and the driver holds the callback registration. *)
Definition armed (s : NodeMidiInput) : Prop :=
  (exists f, handleMessage s = Some f /\ tsfn_closing f = false) /\
  (exists h, handle s = Some h /\ usingCallback h = true).

(** Position of the first event satisfying [P]. *)
Fixpoint firstIndex (P : Event -> bool) (t : list Event) : option nat :=
  match t with
  | [] => None
  | e :: rest => if P e then Some 0%nat else S <$> firstIndex P rest
  end.

Definition isClosePort (e : Event) : bool :=
  match e with EvClosePort => true | _ => false end.
Definition isCancel (e : Event) : bool :=
  match e with EvCancelCallback => true | _ => false end.
Definition isDisarm (e : Event) : bool :=
  match e with EvTsfnAbort | EvTsfnRelease => true | _ => false end.

(** [P]-events start strictly before [Q]-events in [t]. *)
Definition startsBefore (P Q : Event -> bool) (t : list Event) : bool :=
  match firstIndex P t, firstIndex Q t with
  | Some i, Some j => (i <? j)%nat
  | _, _ => false
  end.

(** The order of teardown as the specification's state machine words it:
    disarm, then cancel the registration, then close the port. *)
Definition claimedCloseOrder (t : list Event) : bool :=
  startsBefore isDisarm isCancel t && startsBefore isCancel isClosePort t.

(** The operations that go through [closePortAndRemoveCallback]. *)
Definition isClosing (o : Op) : bool :=
  match o with
  | CallClosePort _ | CallDestroy _ | TsfnFinalizer => true
  | _ => false
  end.

(** ** The envelopes behind a queue of pointers *)

Definition tag (f : nat) (e : double * list byte) : nat * double * list byte :=
  (f, fst e, snd e).

Definition holds (hp : gmap nat HeapObj) (p : nat) (e : double * list byte) : Prop :=
  hp !! p = Some (HMidiMessage (fst e) (Some (S p)) (length (snd e))) /\
  hp !! S p = Some (HBytes (snd e)).

Definition queueOk (s : NodeMidiInput) (es : list (double * list byte)) : Prop :=
  NoDup (queueOf s) /\
  Forall2 (holds (heap s)) (queueOf s) es /\
  (forall a, (brk s <= a)%nat -> heap s !! a = None).

(** ** Concrete endpoints used in the examples *)

Definition twoPorts : Device :=
  mkDevice true 2 (fun n => if n <? 2 then Some "port" else None)
           (fun _ => true) (fun _ => true).

Definition brokenPorts : Device :=
  mkDevice true 2 (fun _ => None) (fun _ => false) (fun _ => false).

Definition idle (d : Device) : NodeMidiInput := snd (constructor d [JsFunction 7%nat]).

Definition noteOn : list byte := [x90; x40; x7f].

Definition opened (d : Device) : NodeMidiInput :=
  snd (OpenVirtualPort [JsString "Test"] (idle d)).

(** The open object with one note delivered and not yet dispatched. *)
Definition queuedNote : NodeMidiInput :=
  default (opened twoPorts) (Callback (Finite 0) noteOn (opened twoPorts)).

Definition notInitialised : JsError := mkJsError ClsError msg_not_initialised.
Definition internalError : JsError := mkJsError ClsError msg_internal.

(** ** Counting events, and executions of the whole system *)

Fixpoint occurrences (P : Event -> bool) (t : list Event) : nat :=
  match t with
  | [] => 0%nat
  | e :: rest => ((if P e then 1 else 0) + occurrences P rest)%nat
  end.

Definition isTsfnNew (e : Event) : bool :=
  match e with EvTsfnNew => true | _ => false end.
Definition isTsfnAbort (e : Event) : bool :=
  match e with EvTsfnAbort => true | _ => false end.
Definition isTsfnRelease (e : Event) : bool :=
  match e with EvTsfnRelease => true | _ => false end.
Definition isSetCallback (e : Event) : bool :=
  match e with EvSetCallback => true | _ => false end.

(** The consumer's calls, the driver thread's deliveries, the turns of the
    consumer's event loop and the finalization of an aborted thread-safe
    function, in any order. *)
Inductive Step : Type :=
| Api (o : Op)
| DriverCalls (deltaTime : double) (message : list byte)
| LoopTurn
| Finalization.

(** Modelled from the spec: the driver invokes its callback only while
    a callback is registered with it (cancellation is synchronous at the
    device handle), and not at all once the device handle is released; a
    delivery offered at another moment does not reach [Callback].  A
    method or the finalizer of the thread-safe function that runs on an
    object whose destructor has run uses freed memory: [None].  The loop
    and the finalization work on the thread-safe function, which the
    environment owns. *)
Definition sysStep (x : Step) (s : NodeMidiInput) : option NodeMidiInput :=
  match x with
  | Api o => if freed s then None else Some (snd (invoke o s))
  | DriverCalls deltaTime message =>
      match handle s with
      | Some h => if usingCallback h then Callback deltaTime message s else Some s
      | None => Some s
      end
  | LoopTurn => dispatchOne s
  | Finalization => finalizeQueue s
  end.

Fixpoint runSystem (xs : list Step) (s : NodeMidiInput) : option NodeMidiInput :=
  match xs with
  | [] => Some s
  | x :: rest => sysStep x s ≫= runSystem rest
  end.

Fixpoint driverCalls (xs : list Step) : list (double * list byte) :=
  match xs with
  | [] => []
  | DriverCalls deltaTime message :: rest => (deltaTime, message) :: driverCalls rest
  | _ :: rest => driverCalls rest
  end.

(** The driver is asked to open port [n] only for [n] below the count it
    reports. *)
Definition openInRange (d : Device) (e : Event) : bool :=
  match e with
  | EvOpenPort n => (0 <=? n) && (n <? dev_portCount d mod two32)
  | _ => true
  end.

(** Every creation of a thread-safe function and every registration is
    matched by one abort, one release and one cancellation, except the
    ones of an arming still in force. *)
Definition balanced (s : NodeMidiInput) : Prop :=
  occurrences isTsfnNew (trace s)
    = (occurrences isTsfnAbort (trace s) + b2n (configured s))%nat /\
  occurrences isSetCallback (trace s)
    = (occurrences isCancel (trace s) + b2n (configured s))%nat /\
  occurrences isTsfnRelease (trace s) = occurrences isTsfnAbort (trace s).

Definition reachInv (d : Device) (s : NodeMidiInput) : Prop :=
  match handle s with
  | Some h => device h = d /\ (connected h = true -> configured s = true)
  | None => True
  end /\
  forallb (openInRange d) (trace s) = true /\
  balanced s.

(** The heap once the envelopes behind a queue have been freed. *)
Definition reclaim (q : list nat) (hp : gmap nat HeapObj) : gmap nat HeapObj :=
  foldr (fun p m => delete p (delete (S p) m)) hp q.

(** What every execution of the whole system keeps, for the handler [f]
    given at construction and the messages [D] the driver has delivered
    so far: the handler has been invoked with, and the live queue holds,
    a selection of [D] in the order of delivery. *)
Definition sysInv (f : nat) (D : list (double * list byte)) (s : NodeMidiInput) : Prop :=
  match handleMessage s with
  | Some t => tsfn_callback t = Some f
  | None => True
  end /\
  (handle s <> None -> emitMessage s = Some f) /\
  consistent s /\ freed s = false /\
  exists es : list (double * list byte),
    queueOk s es /\
    (calls (trace s) ++ map (tag f) es) `sublist_of` map (tag f) D.

(** * Properties *)

(** ** Traces *)

Lemma bridgeAfter_app (t es : list Event) :
  bridgeAfter (t ++ es) = fold_left observe es (bridgeAfter t).
Proof. unfold bridgeAfter. apply fold_left_app. Qed.

Lemma wellSequenced_app (t es : list Event) (v : nat * nat) :
  wellSequenced v (t ++ es) =
  wellSequenced v t && wellSequenced (fold_left observe t v) es.
Proof.
  revert v. induction t as [|e t IH]; intros v; simpl.
  - reflexivity.
  - rewrite IH. now rewrite andb_assoc.
Qed.

Lemma wellSequenced_extend (t es : list Event) :
  wellSequenced (0%nat, 0%nat) (t ++ es) =
  wellSequenced (0%nat, 0%nat) t && wellSequenced (bridgeAfter t) es.
Proof. apply wellSequenced_app. Qed.

Lemma wellSequenced_open (t : list Event) :
  forall (v : nat * nat) (p rest : list Event) (e : Event),
    wellSequenced v t = true ->
    t = p ++ e :: rest ->
    isOpenEvent e = true ->
    armedView (fold_left observe p v) = true.
Proof.
  intros v p rest e Hws ->. revert v Hws.
  induction p as [|x p IH]; intros v Hws Hopen; simpl in *.
  - apply andb_true_iff in Hws as [Hhead _].
    destruct e; simpl in Hopen; try discriminate; exact Hhead.
  - apply andb_true_iff in Hws as [_ Htail]. now apply IH.
Qed.

Lemma wellSequenced_bounded (t : list Event) :
  forall (v : nat * nat) (p k : list Event),
    wellSequenced v t = true ->
    (fst v <= 1)%nat -> (snd v <= 1)%nat ->
    t = p ++ k ->
    (fst (fold_left observe p v) <= 1)%nat /\ (snd (fold_left observe p v) <= 1)%nat.
Proof.
  intros v p k Hws H1 H2 ->. revert v Hws H1 H2.
  induction p as [|x p IH]; intros v Hws H1 H2; simpl in *.
  - split; assumption.
  - apply andb_true_iff in Hws as [Hhead Htail].
    apply IH; [exact Htail | |];
      destruct x; simpl in *; try lia;
      apply Nat.eqb_eq in Hhead; lia.
Qed.

(** ** The lifecycle invariant *)

Lemma lifecycleInv_constructor (d : Device) (info : list JsValue) :
  lifecycleInv (snd (constructor d info)).
Proof.
  unfold constructor, lifecycleInv, consistent, throw.
  destruct info as [|[] ?]; simpl; try (repeat split; reflexivity).
  destruct (Driver.create d) as [h|] eqn:Hc; simpl; repeat split; try reflexivity.
  unfold Driver.create in Hc. destruct (dev_init d); inversion Hc. reflexivity.
Qed.

Lemma lifecycleInv_setupCallback (s : NodeMidiInput) (h : RtMidiIn) :
  handle s = Some h -> lifecycleInv s -> lifecycleInv (setupCallback s).
Proof.
  intros Hh Hinv. unfold setupCallback.
  destruct (configured s) eqn:Hcfg; [exact Hinv|].
  destruct Hinv as (Hc & Hb & Hw). rewrite ?Hcfg in Hb.
  unfold lifecycleInv, consistent; simpl. rewrite Hh; simpl.
  rewrite <- app_assoc, bridgeAfter_app, wellSequenced_extend, Hw, Hb.
  simpl. repeat split; reflexivity.
Qed.

Lemma lifecycleInv_close (s : NodeMidiInput) :
  lifecycleInv s -> lifecycleInv (closePortAndRemoveCallback s).
Proof.
  intros Hinv. unfold closePortAndRemoveCallback.
  destruct (handle s) as [h|] eqn:Hh; [|exact Hinv].
  destruct Hinv as (Hc & Hb & Hw).
  unfold consistent in Hc. rewrite Hh in Hc. destruct Hc as [Hu Ht].
  simpl. destruct (configured s) eqn:Hcfg; rewrite ?Hcfg in Hb.
  - unfold lifecycleInv, consistent; simpl.
    rewrite <- !app_assoc, bridgeAfter_app, wellSequenced_extend, Hw, Hb. simpl.
    destruct (handleMessage s) as [f|]; [|discriminate].
    simpl. destruct Ht as [_ Ht]. repeat split; (reflexivity || assumption).
  - unfold lifecycleInv, consistent; simpl.
    rewrite bridgeAfter_app, wellSequenced_extend, Hw, Hb, ?Hcfg. simpl.
    repeat split; try reflexivity; try assumption.
Qed.

Lemma lifecycleInv_emit_open (s : NodeMidiInput) (e : Event) :
  isOpenEvent e = true -> configured s = true ->
  lifecycleInv s -> lifecycleInv (emit [e] s).
Proof.
  intros He Hcfg (Hc & Hb & Hw). unfold lifecycleInv.
  split; [exact Hc|]. simpl.
  rewrite bridgeAfter_app, wellSequenced_extend, Hw, Hb, Hcfg.
  destruct e; try discriminate; simpl; split; reflexivity.
Qed.

Lemma setupCallback_configured (s : NodeMidiInput) :
  configured (setupCallback s) = true.
Proof. unfold setupCallback. destruct (configured s) eqn:E; [exact E | reflexivity]. Qed.

Lemma setupCallback_handle (s : NodeMidiInput) (h : RtMidiIn) :
  handle s = Some h ->
  exists h', handle (setupCallback s) = Some h' /\ device h' = device h /\
             connected h' = connected h.
Proof.
  intros Hh. unfold setupCallback. destruct (configured s).
  - exists h. auto.
  - simpl. rewrite Hh. simpl. eexists. split; [reflexivity|]. split; reflexivity.
Qed.

Lemma lifecycleInv_with_handle (s : NodeMidiInput) (h h' : RtMidiIn) :
  handle s = Some h -> usingCallback h' = usingCallback h ->
  lifecycleInv s -> lifecycleInv (with_handle (Some h') s).
Proof.
  intros Hh Hu (Hc & Hb & Hw). unfold lifecycleInv, consistent in *; simpl.
  rewrite Hh in Hc. rewrite Hu. tauto.
Qed.

Lemma lifecycleInv_invoke (o : Op) (s : NodeMidiInput) :
  lifecycleInv s -> lifecycleInv (snd (invoke o s)).
Proof.
  intros Hinv. destruct o as [info|info|info|info|info|info|info|info|]; simpl.
  - unfold GetPortCount, throw. destruct (handle s); exact Hinv.
  - unfold GetPortName, throw. destruct (handle s) as [h|]; [|exact Hinv].
    destruct info as [|[] ?]; try exact Hinv.
    simpl. destruct (Driver.getPortName _ h); exact Hinv.
  - unfold OpenPort, throw. destruct (handle s) as [h|] eqn:Hh; [|exact Hinv].
    destruct info as [|[] ?]; try exact Hinv.
    simpl. destruct (_ >=? _); [exact Hinv|].
    destruct (setupCallback_handle s h Hh) as (h1 & Hh1 & _).
    pose proof (lifecycleInv_setupCallback s h Hh Hinv) as Hs.
    pose proof (lifecycleInv_emit_open _ (EvOpenPort (ToUint32 d)) eq_refl
                  (setupCallback_configured s) Hs) as He.
    simpl. rewrite Hh1. simpl. unfold Driver.openPort.
    destruct (dev_openPort _ _); simpl; [|exact He].
    eapply (lifecycleInv_with_handle _ h1); [exact Hh1 | reflexivity | exact He].
  - unfold OpenVirtualPort, throw. destruct (handle s) as [h|] eqn:Hh; [|exact Hinv].
    destruct info as [|[] ?]; try exact Hinv.
    destruct (setupCallback_handle s h Hh) as (h1 & Hh1 & _).
    pose proof (lifecycleInv_setupCallback s h Hh Hinv) as Hs.
    pose proof (lifecycleInv_emit_open _ (EvOpenVirtualPort s0) eq_refl
                  (setupCallback_configured s) Hs) as He.
    simpl. rewrite Hh1. simpl. unfold Driver.openVirtualPort.
    destruct (dev_openVirtualPort _ _); simpl; [|exact He].
    eapply (lifecycleInv_with_handle _ h1); [exact Hh1 | reflexivity | exact He].
  - unfold ClosePort, throw. destruct (handle s); [|exact Hinv].
    simpl. now apply lifecycleInv_close.
  - unfold Destroy. destruct (handle s) as [h|] eqn:Hh; [|exact Hinv].
    simpl. pose proof (lifecycleInv_close s Hinv) as (Hc & Hb & Hw).
    assert (Hcfg : configured (closePortAndRemoveCallback s) = false).
    { unfold closePortAndRemoveCallback. rewrite Hh. simpl.
      destruct (configured s) eqn:E; [reflexivity | exact E]. }
    unfold lifecycleInv, consistent in *; simpl.
    rewrite bridgeAfter_app, wellSequenced_extend, Hw, Hb. simpl.
    repeat split; try tauto; try (rewrite Hcfg; reflexivity).
  - unfold IsPortOpen, throw. destruct (handle s); exact Hinv.
  - unfold IgnoreTypes, throw. destruct (handle s) as [h|] eqn:Hh; [|exact Hinv].
    destruct info as [|[] [|[] [|[] [|? ?]]]]; try exact Hinv.
    simpl. destruct Hinv as (Hc & Hb & Hw).
    unfold lifecycleInv, consistent in *; simpl.
    rewrite Hh in Hc. rewrite bridgeAfter_app, wellSequenced_extend, Hw, Hb. simpl.
    repeat split; tauto.
  - now apply lifecycleInv_close.
Qed.

Lemma lifecycleInv_run (ops : list Op) (s : NodeMidiInput) :
  lifecycleInv s -> lifecycleInv (run ops s).
Proof.
  revert s. induction ops as [|o ops IH]; intros s Hinv; simpl.
  - exact Hinv.
  - apply IH. now apply lifecycleInv_invoke.
Qed.

(** ** What a call appends to the trace *)

Lemma emitted_app (s s' : NodeMidiInput) (es : list Event) :
  trace s' = trace s ++ es -> emitted s s' = es.
Proof. intros E. unfold emitted. rewrite E. apply drop_app_length. Qed.

Lemma trace_setupCallback (s : NodeMidiInput) :
  trace (setupCallback s) =
  trace s ++ (if configured s then [] else [EvTsfnNew; EvSetCallback]).
Proof.
  unfold setupCallback. destruct (configured s); simpl.
  - now rewrite app_nil_r.
  - now rewrite <- app_assoc.
Qed.

Lemma trace_close (s : NodeMidiInput) (h : RtMidiIn) :
  handle s = Some h ->
  trace (closePortAndRemoveCallback s) =
  trace s ++ EvClosePort ::
    (if configured s then [EvCancelCallback; EvTsfnAbort; EvTsfnRelease] else []).
Proof.
  intros Hh. unfold closePortAndRemoveCallback. rewrite Hh. simpl.
  destruct (configured s); simpl; [|reflexivity].
  now rewrite <- !app_assoc.
Qed.

Lemma configured_close (s : NodeMidiInput) (h : RtMidiIn) :
  handle s = Some h -> configured (closePortAndRemoveCallback s) = false.
Proof.
  intros Hh. unfold closePortAndRemoveCallback. rewrite Hh. simpl.
  destruct (configured s) eqn:E; [reflexivity | exact E].
Qed.

Lemma handle_close (s : NodeMidiInput) (h : RtMidiIn) :
  handle s = Some h ->
  exists h', handle (closePortAndRemoveCallback s) = Some h' /\ device h' = device h.
Proof.
  intros Hh. unfold closePortAndRemoveCallback. rewrite Hh. simpl.
  destruct (configured s); simpl; eexists; split; reflexivity.
Qed.

Lemma trace_OpenPort (s : NodeMidiInput) (h : RtMidiIn) (d : double) (rest : list JsValue) :
  handle s = Some h ->
  ToUint32 d < Driver.getPortCount h ->
  trace (snd (OpenPort (JsNumber d :: rest) s)) =
  trace (setupCallback s) ++ [EvOpenPort (ToUint32 d)].
Proof.
  intros Hh Hlt. unfold OpenPort. rewrite Hh.
  destruct (Z.geb_spec (ToUint32 d) (Driver.getPortCount h)) as [Hge|_]; [lia|].
  destruct (_ ≫= _); reflexivity.
Qed.

Lemma trace_OpenVirtualPort (s : NodeMidiInput) (h : RtMidiIn) (name : string)
  (rest : list JsValue) :
  handle s = Some h ->
  trace (snd (OpenVirtualPort (JsString name :: rest) s)) =
  trace (setupCallback s) ++ [EvOpenVirtualPort name].
Proof.
  intros Hh. unfold OpenVirtualPort. rewrite Hh.
  destruct (_ ≫= _); reflexivity.
Qed.

Lemma armedView_setupCallback (s : NodeMidiInput) (h : RtMidiIn) :
  lifecycleInv s -> handle s = Some h ->
  armedView (bridgeAfter (trace (setupCallback s))) = true.
Proof.
  intros Hinv Hh.
  destruct (lifecycleInv_setupCallback s h Hh Hinv) as (_ & Hb & _).
  rewrite Hb, setupCallback_configured. reflexivity.
Qed.

(** ** C2 *)

(** C2: on openPort(index) and on openVirtualPort(name), once the
    preconditions hold, the driver is asked to open the port as the last
    step, after the thread-safe function was created and the driver
    callback registered (in this call, or in an earlier one when the flag
    is already set); in every history of calls, each port-open event
    finds both in place. *)
Theorem C2_bridge_armed_before_port_opens
  (dev : Device) (info : list JsValue) (ops : list Op) (h : RtMidiIn) :
  let s := run ops (snd (constructor dev info)) in
  handle s = Some h ->
  (forall (d : double) (rest : list JsValue),
      ToUint32 d < Driver.getPortCount h ->
      emitted s (snd (OpenPort (JsNumber d :: rest) s)) =
        (if configured s then [] else [EvTsfnNew; EvSetCallback])
        ++ [EvOpenPort (ToUint32 d)] /\
      armedView (bridgeAfter
        (trace s ++ if configured s then [] else [EvTsfnNew; EvSetCallback])) = true) /\
  (forall (name : string) (rest : list JsValue),
      emitted s (snd (OpenVirtualPort (JsString name :: rest) s)) =
        (if configured s then [] else [EvTsfnNew; EvSetCallback])
        ++ [EvOpenVirtualPort name] /\
      armedView (bridgeAfter
        (trace s ++ if configured s then [] else [EvTsfnNew; EvSetCallback])) = true) /\
  (forall (p rest : list Event) (e : Event),
      trace s = p ++ e :: rest ->
      isOpenEvent e = true ->
      armedView (bridgeAfter p) = true).
Proof.
  intros s Hh.
  assert (Hinv : lifecycleInv s)
    by (apply lifecycleInv_run, lifecycleInv_constructor).
  pose proof (armedView_setupCallback s h Hinv Hh) as Ha.
  rewrite trace_setupCallback in Ha.
  repeat split.
  - apply emitted_app.
    rewrite (trace_OpenPort s h) by assumption.
    rewrite trace_setupCallback. now rewrite <- app_assoc.
  - exact Ha.
  - apply emitted_app.
    rewrite (trace_OpenVirtualPort s h) by assumption.
    rewrite trace_setupCallback. now rewrite <- app_assoc.
  - exact Ha.
  - intros p rest e Ht He. destruct Hinv as (_ & _ & Hw).
    exact (wellSequenced_open _ _ p rest e Hw Ht He).
Qed.

Lemma C2_witness :
  let s := run [CallClosePort []] (snd (constructor twoPorts [JsFunction 7%nat])) in
  emitted s (snd (OpenPort [JsNumber (NumberOfZ 1)] s)) =
    [EvTsfnNew; EvSetCallback; EvOpenPort 1].
Proof.
  intros s.
  assert (Hh : handle s = Some (mkRtMidiIn twoPorts false false (true, true, true)))
    by reflexivity.
  destruct (C2_bridge_armed_before_port_opens twoPorts [JsFunction 7%nat]
              [CallClosePort []] _ Hh) as [Hopen _].
  destruct (Hopen (NumberOfZ 1) []) as [He _]; [vm_compute; reflexivity|].
  exact He.
Defined.

(** ** C3 *)

(** C3, as stated, fails: closing an open port whose bridge is armed
    closes the port first and aborts the thread-safe function last. *)
Lemma C3_counterexample :
  emitted (opened twoPorts) (snd (ClosePort [] (opened twoPorts))) =
    [EvClosePort; EvCancelCallback; EvTsfnAbort; EvTsfnRelease] /\
  claimedCloseOrder (emitted (opened twoPorts) (snd (ClosePort [] (opened twoPorts))))
    = false.
Proof. split; vm_compute; reflexivity. Qed.

(** C3 (amended): closePort, and the close path of destroy and of the
    destructor, first close the port, then, when the bridge is armed,
    cancel the driver callback registration, and only then abort and
    release the thread-safe function; destroy and the destructor release
    the device handle after that. *)
Theorem C3_close_order (s : NodeMidiInput) (h : RtMidiIn) (info : list JsValue) :
  handle s = Some h ->
  let steps :=
    EvClosePort ::
      (if configured s then [EvCancelCallback; EvTsfnAbort; EvTsfnRelease] else []) in
  emitted s (closePortAndRemoveCallback s) = steps /\
  emitted s (snd (ClosePort info s)) = steps /\
  emitted s (snd (Destroy info s)) = steps ++ [EvHandleReset] /\
  emitted s (destructor s) = steps ++ [EvHandleReset].
Proof.
  intros Hh steps. pose proof (trace_close s h Hh) as Ht. fold steps in Ht.
  destruct (handle_close s h Hh) as (h' & Hh' & _).
  repeat split; apply emitted_app.
  - exact Ht.
  - unfold ClosePort. rewrite Hh. exact Ht.
  - unfold Destroy. rewrite Hh. simpl. rewrite Ht. now rewrite <- app_assoc.
  - unfold destructor. rewrite Hh'. simpl. rewrite Ht. now rewrite <- app_assoc.
Qed.

Lemma C3_witness :
  emitted (opened twoPorts) (snd (Destroy [] (opened twoPorts))) =
    [EvClosePort; EvCancelCallback; EvTsfnAbort; EvTsfnRelease; EvHandleReset].
Proof.
  assert (Hh : handle (opened twoPorts)
               = Some (mkRtMidiIn twoPorts true true (true, true, true)))
    by reflexivity.
  destruct (C3_close_order (opened twoPorts) _ [] Hh) as (_ & _ & Hd & _).
  exact Hd.
Defined.

(** ** C4 *)

Lemma handle_Destroy (info : list JsValue) (s : NodeMidiInput) :
  handle (snd (Destroy info s)) = None.
Proof. unfold Destroy. destruct (handle s) eqn:E; [reflexivity | exact E]. Qed.

(** C4: once destroy() has run, getPortCount, getPortName, openPort,
    openVirtualPort, closePort, isPortOpen and ignoreTypes each raise the
    error "RtMidi not initialised" (kind NotInitialized) whatever their
    arguments and leave the object exactly as it was; destroy() again
    returns normally and changes nothing. *)
Theorem C4_after_destroy (s : NodeMidiInput) (info0 info : list JsValue) :
  let sd := snd (Destroy info0 s) in
  GetPortCount info sd = (Throw notInitialised, sd) /\
  GetPortName info sd = (Throw notInitialised, sd) /\
  OpenPort info sd = (Throw notInitialised, sd) /\
  OpenVirtualPort info sd = (Throw notInitialised, sd) /\
  ClosePort info sd = (Throw notInitialised, sd) /\
  IsPortOpen info sd = (Throw notInitialised, sd) /\
  IgnoreTypes info sd = (Throw notInitialised, sd) /\
  errorKind notInitialised = Some NotInitialized /\
  Destroy info sd = (Return JsNull, sd).
Proof.
  intros sd. pose proof (handle_Destroy info0 s) as Hh. fold sd in Hh.
  unfold GetPortCount, GetPortName, OpenPort, OpenVirtualPort, ClosePort,
    IsPortOpen, IgnoreTypes, Destroy, throw.
  rewrite Hh. repeat split; reflexivity.
Qed.

(** ** C5 *)

(** C5, as stated, fails: 2^32 is a number and is not below the port
    count 2, yet openPort(2^32) raises no range error; it arms the bridge
    and opens port 0. *)
Lemma C5_counterexample :
  (inject_Z (Driver.getPortCount (mkRtMidiIn twoPorts false false (true, true, true)))
     <= 4294967296 # 1)%Q /\
  fst (OpenPort [JsNumber (Finite (4294967296 # 1))] (idle twoPorts)) = Return JsNull /\
  trace (snd (OpenPort [JsNumber (Finite (4294967296 # 1))] (idle twoPorts))) =
    [EvTsfnNew; EvSetCallback; EvOpenPort 0].
Proof.
  split; [|split]; [|vm_compute; reflexivity..].
  unfold Qle. vm_compute. discriminate.
Qed.

(** C5 (amended): for every numeric index, openPort(index) raises the
    range error "Invalid MIDI port number" when the index converted to a
    32-bit unsigned integer is >= portCount, and then neither arms the
    bridge nor opens the port; when portCount > 0, openPort(portCount - 1)
    passes the range check and asks the driver to open that port. *)
Theorem C5_range_check (s : NodeMidiInput) (h : RtMidiIn) (rest : list JsValue) :
  handle s = Some h ->
  (forall d : double,
      Driver.getPortCount h <= ToUint32 d ->
      OpenPort (JsNumber d :: rest) s
        = (Throw (mkJsError ClsRangeError msg_invalid_port), s)) /\
  errorKind (mkJsError ClsRangeError msg_invalid_port) = Some OutOfRange /\
  (0 < Driver.getPortCount h ->
   let last := Driver.getPortCount h - 1 in
   emitted s (snd (OpenPort (JsNumber (NumberOfZ last) :: rest) s)) =
     (if configured s then [] else [EvTsfnNew; EvSetCallback]) ++ [EvOpenPort last] /\
   fst (OpenPort (JsNumber (NumberOfZ last) :: rest) s) =
     if dev_openPort (device h) last then Return JsNull else Throw internalError).
Proof.
  intros Hh. split; [|split; [reflexivity|]].
  - intros d Hge. unfold OpenPort. rewrite Hh.
    destruct (Z.geb_spec (ToUint32 d) (Driver.getPortCount h)) as [_|Hlt]; [reflexivity|lia].
  - intros Hpos last.
    assert (Hrange : 0 <= Driver.getPortCount h < two32)
      by (unfold Driver.getPortCount; apply Z.mod_pos_bound; reflexivity).
    assert (Hconv : ToUint32 (NumberOfZ last) = last).
    { unfold ToUint32, NumberOfZ, inject_Z. simpl. rewrite Z.quot_1_r.
      apply Z.mod_small. unfold last. lia. }
    split.
    + apply emitted_app. rewrite (trace_OpenPort s h) by (rewrite ?Hconv; unfold last; lia || assumption).
      rewrite trace_setupCallback, Hconv. now rewrite <- app_assoc.
    + unfold OpenPort. rewrite Hh, Hconv.
      destruct (Z.geb_spec last (Driver.getPortCount h)) as [Hge|_]; [unfold last in Hge; lia|].
      destruct (setupCallback_handle s h Hh) as (h1 & Hh1 & Hdev & _).
      simpl. rewrite Hh1. simpl. unfold Driver.openPort. rewrite Hdev.
      destruct (dev_openPort (device h) last); reflexivity.
Qed.

Lemma C5_witness :
  OpenPort [JsNumber (NumberOfZ 2)] (idle twoPorts)
    = (Throw (mkJsError ClsRangeError msg_invalid_port), idle twoPorts) /\
  fst (OpenPort [JsNumber (NumberOfZ 1)] (idle twoPorts)) = Return JsNull.
Proof.
  assert (Hh : handle (idle twoPorts)
               = Some (mkRtMidiIn twoPorts false false (true, true, true)))
    by reflexivity.
  destruct (C5_range_check (idle twoPorts) _ [] Hh) as (Hfail & _ & Hlast).
  split.
  - apply Hfail. vm_compute. discriminate.
  - destruct Hlast as [_ Hr]; [vm_compute; reflexivity|]. exact Hr.
Defined.

(** ** C7 and C8 *)

Lemma armed_setupCallback (s : NodeMidiInput) (h : RtMidiIn) :
  consistent s -> handle s = Some h ->
  exists f h',
    handleMessage (setupCallback s) = Some f /\ tsfn_closing f = false /\
    handle (setupCallback s) = Some h' /\ usingCallback h' = true /\
    device h' = device h /\ connected h' = connected h.
Proof.
  intros [Hc Ht] Hh. unfold setupCallback. rewrite Hh in Hc.
  destruct (configured s) eqn:Hcfg.
  - destruct (handleMessage s) as [f|]; [|discriminate].
    exists f, h. destruct Ht as [Ht _]. repeat split; assumption.
  - simpl. rewrite Hh. simpl. eexists _, _. repeat split.
Qed.

Lemma OpenPort_driver_failure (s : NodeMidiInput) (h : RtMidiIn) (d : double)
  (rest : list JsValue) :
  handle s = Some h ->
  ToUint32 d < Driver.getPortCount h ->
  dev_openPort (device h) (ToUint32 d) = false ->
  OpenPort (JsNumber d :: rest) s =
    (Throw internalError, emit [EvOpenPort (ToUint32 d)] (setupCallback s)).
Proof.
  intros Hh Hlt Hfail. unfold OpenPort. rewrite Hh.
  destruct (Z.geb_spec (ToUint32 d) (Driver.getPortCount h)) as [Hge|_]; [lia|].
  destruct (setupCallback_handle s h Hh) as (h1 & Hh1 & Hdev & _).
  simpl. rewrite Hh1. simpl. unfold Driver.openPort. rewrite Hdev, Hfail. reflexivity.
Qed.

Lemma OpenVirtualPort_driver_failure (s : NodeMidiInput) (h : RtMidiIn) (name : string)
  (rest : list JsValue) :
  handle s = Some h ->
  dev_openVirtualPort (device h) name = false ->
  OpenVirtualPort (JsString name :: rest) s =
    (Throw internalError, emit [EvOpenVirtualPort name] (setupCallback s)).
Proof.
  intros Hh Hfail. unfold OpenVirtualPort. rewrite Hh.
  destruct (setupCallback_handle s h Hh) as (h1 & Hh1 & Hdev & _).
  simpl. rewrite Hh1. simpl. unfold Driver.openVirtualPort. rewrite Hdev, Hfail.
  reflexivity.
Qed.

Lemma armed_closed_after_failure (s : NodeMidiInput) (h : RtMidiIn) (e : Event) :
  consistent s -> handle s = Some h -> connected h = false ->
  let s' := emit [e] (setupCallback s) in
  armed s' /\ configured s' = true /\
  exists h', handle s' = Some h' /\ Driver.isPortOpen h' = false.
Proof.
  intros Hc Hh Hclosed s'.
  destruct (armed_setupCallback s h Hc Hh) as (f & h' & Hf & Hcl & Hh' & Hu & _ & Hconn).
  repeat split.
  - exists f. split; assumption.
  - exists h'. split; assumption.
  - apply setupCallback_configured.
  - exists h'. split; [exact Hh'|]. unfold Driver.isPortOpen. congruence.
Qed.

(** C7: when the driver raises while opening (by index or virtual) from
    a state with the port closed, the caller gets the error "Internal
    RtMidi error" from that very call, the bridge stays armed (the flag
    set, the thread-safe function live, the driver callback registered)
    and the port is still closed. *)
Theorem C7_failed_open_leaves_bridge_armed
  (s : NodeMidiInput) (h : RtMidiIn) (rest : list JsValue) :
  consistent s ->
  handle s = Some h ->
  connected h = false ->
  (forall d : double,
      ToUint32 d < Driver.getPortCount h ->
      dev_openPort (device h) (ToUint32 d) = false ->
      let r := OpenPort (JsNumber d :: rest) s in
      fst r = Throw internalError /\ armed (snd r) /\ configured (snd r) = true /\
      exists h', handle (snd r) = Some h' /\ Driver.isPortOpen h' = false) /\
  (forall name : string,
      dev_openVirtualPort (device h) name = false ->
      let r := OpenVirtualPort (JsString name :: rest) s in
      fst r = Throw internalError /\ armed (snd r) /\ configured (snd r) = true /\
      exists h', handle (snd r) = Some h' /\ Driver.isPortOpen h' = false).
Proof.
  intros Hc Hh Hclosed. split.
  - intros d Hlt Hfail r. unfold r.
    rewrite (OpenPort_driver_failure s h d rest Hh Hlt Hfail). simpl.
    split; [reflexivity|].
    exact (armed_closed_after_failure s h _ Hc Hh Hclosed).
  - intros name Hfail r. unfold r.
    rewrite (OpenVirtualPort_driver_failure s h name rest Hh Hfail). simpl.
    split; [reflexivity|].
    exact (armed_closed_after_failure s h _ Hc Hh Hclosed).
Qed.

Lemma C7_witness :
  fst (OpenPort [JsNumber (NumberOfZ 1)] (idle brokenPorts)) = Throw internalError /\
  armed (snd (OpenPort [JsNumber (NumberOfZ 1)] (idle brokenPorts))).
Proof.
  assert (Hh : handle (idle brokenPorts)
               = Some (mkRtMidiIn brokenPorts false false (true, true, true)))
    by reflexivity.
  assert (Hc : consistent (idle brokenPorts)) by (split; reflexivity).
  destruct (C7_failed_open_leaves_bridge_armed (idle brokenPorts) _ []
              Hc Hh eq_refl) as [Hopen _].
  destruct (Hopen (NumberOfZ 1)) as (Hr & Ha & _);
    [vm_compute; reflexivity | reflexivity |].
  split; assumption.
Defined.




(** ** C9 *)

Lemma configured_invoke (o : Op) (s : NodeMidiInput) :
  configured s = true -> configured (snd (invoke o s)) = false -> isClosing o = true.
Proof.
  intros Hcfg Hoff.
  destruct o as [info|info|info|info|info|info|info|info|]; simpl in *;
    try reflexivity; exfalso.
  - unfold GetPortCount, throw in Hoff. destruct (handle s); simpl in Hoff; congruence.
  - unfold GetPortName, throw in Hoff. destruct (handle s) as [h|]; [|simpl in Hoff; congruence].
    destruct info as [|[] ?]; simpl in Hoff; try congruence.
    destruct (Driver.getPortName _ h); simpl in Hoff; congruence.
  - unfold OpenPort, throw in Hoff. destruct (handle s) as [h|]; [|simpl in Hoff; congruence].
    destruct info as [|[] ?]; simpl in Hoff; try congruence.
    destruct (_ >=? _); [simpl in Hoff; congruence|].
    destruct (_ ≫= _); simpl in Hoff; rewrite setupCallback_configured in Hoff;
      discriminate.
  - unfold OpenVirtualPort, throw in Hoff.
    destruct (handle s) as [h|]; [|simpl in Hoff; congruence].
    destruct info as [|[] ?]; simpl in Hoff; try congruence.
    destruct (_ ≫= _); simpl in Hoff; rewrite setupCallback_configured in Hoff;
      discriminate.
  - unfold IsPortOpen, throw in Hoff. destruct (handle s); simpl in Hoff; congruence.
  - unfold IgnoreTypes, throw in Hoff. destruct (handle s) as [h|]; [|simpl in Hoff; congruence].
    destruct info as [|[] [|[] [|[] [|? ?]]]]; simpl in Hoff; congruence.
Qed.

(** C9: in a state reached by any calls in which the flag is set,
    setupCallback changes nothing; openPort and openVirtualPort are
    accepted and ask the driver to open without creating a thread-safe
    function or registering a callback again; at no point of the history
    is there more than one live thread-safe function or more than one
    registration; the flag is cleared only by the operations that go
    through closePortAndRemoveCallback, after which setupCallback arms
    again. *)
Theorem C9_no_second_arming
  (dev : Device) (info : list JsValue) (ops : list Op) (h : RtMidiIn)
  (rest : list JsValue) :
  let s := run ops (snd (constructor dev info)) in
  handle s = Some h ->
  configured s = true ->
  setupCallback s = s /\
  (forall d : double,
      ToUint32 d < Driver.getPortCount h ->
      emitted s (snd (OpenPort (JsNumber d :: rest) s)) = [EvOpenPort (ToUint32 d)] /\
      fst (OpenPort (JsNumber d :: rest) s) =
        if dev_openPort (device h) (ToUint32 d) then Return JsNull
        else Throw internalError) /\
  (forall name : string,
      emitted s (snd (OpenVirtualPort (JsString name :: rest) s))
        = [EvOpenVirtualPort name] /\
      fst (OpenVirtualPort (JsString name :: rest) s) =
        if dev_openVirtualPort (device h) name then Return JsNull
        else Throw internalError) /\
  (forall p k : list Event,
      trace s = p ++ k ->
      (fst (bridgeAfter p) <= 1)%nat /\ (snd (bridgeAfter p) <= 1)%nat) /\
  (forall o : Op, configured (snd (invoke o s)) = false -> isClosing o = true) /\
  configured (closePortAndRemoveCallback s) = false /\
  emitted (closePortAndRemoveCallback s) (setupCallback (closePortAndRemoveCallback s))
    = [EvTsfnNew; EvSetCallback].
Proof.
  intros s Hh Hcfg.
  assert (Hinv : lifecycleInv s)
    by (apply lifecycleInv_run, lifecycleInv_constructor).
  assert (Hsetup : setupCallback s = s)
    by (unfold setupCallback; now rewrite Hcfg).
  split; [exact Hsetup|]. split; [|split; [|split; [|split; [|split]]]].
  - intros d Hlt. split.
    + apply emitted_app. rewrite (trace_OpenPort s h) by assumption.
      now rewrite Hsetup.
    + unfold OpenPort. rewrite Hh, Hsetup.
      destruct (Z.geb_spec (ToUint32 d) (Driver.getPortCount h)) as [Hge|_]; [lia|].
      simpl. rewrite Hh. simpl. unfold Driver.openPort.
      destruct (dev_openPort (device h) (ToUint32 d)); reflexivity.
  - intros name. split.
    + apply emitted_app. rewrite (trace_OpenVirtualPort s h) by assumption.
      now rewrite Hsetup.
    + unfold OpenVirtualPort. rewrite Hh, Hsetup.
      simpl. rewrite Hh. simpl. unfold Driver.openVirtualPort.
      destruct (dev_openVirtualPort (device h) name); reflexivity.
  - intros p k Ht. destruct Hinv as (_ & _ & Hw).
    apply (wellSequenced_bounded _ _ p k Hw); simpl; (lia || assumption).
  - intros o. now apply configured_invoke.
  - exact (configured_close s h Hh).
  - apply emitted_app. rewrite trace_setupCallback.
    now rewrite (configured_close s h Hh).
Qed.

Lemma C9_witness :
  let s := run [CallOpenPort [JsNumber (NumberOfZ 0)]]
               (snd (constructor brokenPorts [JsFunction 7%nat])) in
  setupCallback s = s /\
  emitted s (snd (OpenVirtualPort [JsString "Test"] s)) = [EvOpenVirtualPort "Test"].
Proof.
  intros s.
  assert (Hh : handle s = Some (mkRtMidiIn brokenPorts false true (true, true, true)))
    by reflexivity.
  destruct (C9_no_second_arming brokenPorts [JsFunction 7%nat]
              [CallOpenPort [JsNumber (NumberOfZ 0)]] _ [] Hh eq_refl)
    as (Hsetup & _ & Hvirt & _).
  split; [exact Hsetup | exact (proj1 (Hvirt "Test"))].
Defined.

(** ** C10 *)

Lemma ToUint32_range (d : double) : 0 <= ToUint32 d < two32.
Proof.
  destruct d as [| |q]; simpl; try (unfold two32; lia).
  apply Z.mod_pos_bound. reflexivity.
Qed.

Lemma ToUint32_fixed (d : double) : ToUint32 (NumberOfZ (ToUint32 d)) = ToUint32 d.
Proof.
  pose proof (ToUint32_range d) as Hr.
  unfold NumberOfZ, inject_Z. cbn [ToUint32 Qnum Qden].
  rewrite Z.quot_1_r. now apply Z.mod_small.
Qed.

Lemma ToUint32_integer (z : Z) : ToUint32 (NumberOfZ z) = z mod two32.
Proof. unfold ToUint32, NumberOfZ, inject_Z. simpl. now rewrite Z.quot_1_r. Qed.

(** C10: openPort and getPortName accept every number, it never raises
    the "must be an integer" error, and what they range-check and hand
    to the driver is the number converted to a 32-bit unsigned integer:
    openPort raises the range error exactly when the converted value is
    not below the port count and otherwise asks the driver to open the
    port of that number, getPortName asks the driver for the name at that
    number.  The converted value of an integer is the integer modulo
    2^32, that of a finite number is the one of the number truncated
    toward zero; so openPort(-1) is rejected by the range check on every
    device, as 2^32 - 1, and openPort(1.5) opens port 1 when there are at
    least two ports and is rejected otherwise. *)
Theorem C10_index_conversion
  (s : NodeMidiInput) (h : RtMidiIn) (rest : list JsValue) :
  handle s = Some h ->
  let arm := if configured s then [] else [EvTsfnNew; EvSetCallback] in
  (forall d : double,
      fst (OpenPort (JsNumber d :: rest) s)
        <> Throw (mkJsError ClsTypeError msg_must_be_integer) /\
      fst (GetPortName (JsNumber d :: rest) s)
        <> Throw (mkJsError ClsTypeError msg_must_be_integer)) /\
  (forall d : double,
      Driver.getPortCount h <= ToUint32 d ->
      OpenPort (JsNumber d :: rest) s
        = (Throw (mkJsError ClsRangeError msg_invalid_port), s)) /\
  (forall d : double,
      ToUint32 d < Driver.getPortCount h ->
      emitted s (snd (OpenPort (JsNumber d :: rest) s))
        = arm ++ [EvOpenPort (ToUint32 d)] /\
      fst (OpenPort (JsNumber d :: rest) s) =
        if dev_openPort (device h) (ToUint32 d) then Return JsNull
        else Throw internalError) /\
  (forall d : double,
      GetPortName (JsNumber d :: rest) s =
        match dev_portName (device h) (ToUint32 d) with
        | Some name => (Return (JsString name), s)
        | None => (Throw (mkJsError ClsTypeError msg_internal), s)
        end) /\
  (forall z : Z, ToUint32 (NumberOfZ z) = z mod 2 ^ 32) /\
  (forall q : Q,
      ToUint32 (Finite q) = ToUint32 (NumberOfZ (Z.quot (Qnum q) (Z.pos (Qden q))))) /\
  OpenPort (JsNumber (Finite (-1 # 1)) :: rest) s
    = (Throw (mkJsError ClsRangeError msg_invalid_port), s) /\
  (1 < Driver.getPortCount h ->
   emitted s (snd (OpenPort (JsNumber (Finite (3 # 2)) :: rest) s))
     = arm ++ [EvOpenPort 1]) /\
  (Driver.getPortCount h <= 1 ->
   OpenPort (JsNumber (Finite (3 # 2)) :: rest) s
     = (Throw (mkJsError ClsRangeError msg_invalid_port), s)) /\
  (forall d : double,
      OpenPort (JsNumber d :: rest) s
        = OpenPort (JsNumber (NumberOfZ (ToUint32 d)) :: rest) s /\
      GetPortName (JsNumber d :: rest) s
        = GetPortName (JsNumber (NumberOfZ (ToUint32 d)) :: rest) s).
Proof.
  intros Hh arm.
  assert (Hrange : 0 <= Driver.getPortCount h < two32)
    by (unfold Driver.getPortCount; apply Z.mod_pos_bound; reflexivity).
  assert (Hreject : forall d : double,
             Driver.getPortCount h <= ToUint32 d ->
             OpenPort (JsNumber d :: rest) s
               = (Throw (mkJsError ClsRangeError msg_invalid_port), s)).
  { intros d Hge. unfold OpenPort, throw. rewrite Hh.
    destruct (Z.geb_spec (ToUint32 d) (Driver.getPortCount h)) as [_|Hlt];
      [reflexivity | lia]. }
  assert (Hopen : forall d : double,
             ToUint32 d < Driver.getPortCount h ->
             emitted s (snd (OpenPort (JsNumber d :: rest) s))
               = arm ++ [EvOpenPort (ToUint32 d)] /\
             fst (OpenPort (JsNumber d :: rest) s) =
               if dev_openPort (device h) (ToUint32 d) then Return JsNull
               else Throw internalError).
  { intros d Hlt. split.
    - apply emitted_app. rewrite (trace_OpenPort s h) by assumption.
      rewrite trace_setupCallback. now rewrite <- app_assoc.
    - unfold OpenPort. rewrite Hh.
      destruct (Z.geb_spec (ToUint32 d) (Driver.getPortCount h)) as [Hge|_]; [lia|].
      destruct (setupCallback_handle s h Hh) as (h1 & Hh1 & Hdev & _).
      simpl. rewrite Hh1. simpl. unfold Driver.openPort. rewrite Hdev.
      destruct (dev_openPort (device h) (ToUint32 d)); reflexivity. }
  split; [|split; [exact Hreject|split; [exact Hopen|split; [|split; [|split;
    [|split; [|split; [|split]]]]]]]].
  - intros d. split.
    + unfold OpenPort, throw. rewrite Hh.
      destruct (_ >=? _); [simpl; discriminate|].
      destruct (_ ≫= _); simpl; discriminate.
    + unfold GetPortName, throw. rewrite Hh.
      destruct (Driver.getPortName _ h); simpl; discriminate.
  - intros d. unfold GetPortName, Driver.getPortName, throw. rewrite Hh.
    destruct (dev_portName (device h) (ToUint32 d)); reflexivity.
  - exact ToUint32_integer.
  - intros q. rewrite ToUint32_integer. reflexivity.
  - apply Hreject. change (ToUint32 (Finite (-1 # 1))) with (two32 - 1). lia.
  - intros Hmany. apply (Hopen (Finite (3 # 2))).
    change (ToUint32 (Finite (3 # 2))) with 1. exact Hmany.
  - intros Hfew. apply Hreject. change (ToUint32 (Finite (3 # 2))) with 1. exact Hfew.
  - intros d. split.
    + unfold OpenPort. rewrite Hh, ToUint32_fixed. reflexivity.
    + unfold GetPortName. rewrite Hh, ToUint32_fixed. reflexivity.
Qed.

Lemma C10_witness :
  emitted (idle twoPorts) (snd (OpenPort [JsNumber (Finite (3 # 2))] (idle twoPorts)))
    = [EvTsfnNew; EvSetCallback; EvOpenPort 1] /\
  OpenPort [JsNumber (Finite (-1 # 1))] (idle twoPorts)
    = (Throw (mkJsError ClsRangeError msg_invalid_port), idle twoPorts).
Proof.
  assert (Hh : handle (idle twoPorts)
               = Some (mkRtMidiIn twoPorts false false (true, true, true)))
    by reflexivity.
  destruct (C10_index_conversion (idle twoPorts) _ [] Hh)
    as (_ & _ & _ & _ & _ & _ & Hneg & Hfrac & _).
  split; [apply Hfrac; vm_compute; reflexivity | exact Hneg].
Defined.

(** ** The consumer side of the bridge *)

Lemma calls_app (t u : list Event) : calls (t ++ u) = calls t ++ calls u.
Proof.
  induction t as [|e t IH]; simpl; [reflexivity|].
  destruct e; simpl; rewrite IH; reflexivity.
Qed.

Lemma CallbackJs_aborted (env : bool) (callback : option nat) (s : NodeMidiInput)
  (p b len : nat) (dt : double) (bs : list byte) :
  env = false \/ callback = None ->
  heap s !! p = Some (HMidiMessage dt (Some b) len) ->
  heap s !! b = Some (HBytes bs) ->
  CallbackJs env callback (Some p) s =
    Some (mkInput (handle s) (configured s) (handleMessage s) (emitMessage s)
            (delete p (delete b (heap s))) (brk s)
            (trace s ++ [EvDeleteArray b; EvDelete p]) (freed s)).
Proof.
  intros Hgone Hp Hb.
  assert (Hne : b <> p) by (intros ->; congruence).
  assert (Hskip : match env, callback with
                  | true, Some f =>
                      match Some p ≫= (heap s !!.) with
                      | Some (HMidiMessage deltaTime (Some buf) messageLength) =>
                          match heap s !! buf with
                          | Some (HBytes bs0) =>
                              if decide (messageLength ≤ length bs0)%nat
                              then Some (emit [EvCall f deltaTime (take messageLength bs0)] s)
                              else None
                          | _ => None
                          end
                      | _ => None
                      end
                  | _, _ => Some s
                  end = Some s).
  { destruct Hgone as [-> | ->]; [reflexivity | destruct env; reflexivity]. }
  unfold CallbackJs. rewrite Hskip. simpl. rewrite Hp, Hb. simpl.
  unfold emit, with_heap. simpl. rewrite <- app_assoc. reflexivity.
Qed.

Lemma CallbackJs_delivered (f : nat) (s : NodeMidiInput) (p : nat)
  (e : double * list byte) :
  holds (heap s) p e ->
  CallbackJs true (Some f) (Some p) s =
    Some (mkInput (handle s) (configured s) (handleMessage s) (emitMessage s)
            (delete p (delete (S p) (heap s))) (brk s)
            (trace s ++ [EvCall f (fst e) (snd e); EvDeleteArray (S p); EvDelete p]) (freed s)).
Proof.
  intros [Hp Hb]. unfold CallbackJs. simpl. rewrite Hp, Hb.
  destruct (decide (length (snd e) ≤ length (snd e))%nat) as [_|Hn]; [|lia].
  simpl. rewrite Hp, Hb. simpl.
  unfold emit, with_heap. simpl. rewrite firstn_all, <- !app_assoc. reflexivity.
Qed.

Lemma holds_after_free (hp : gmap nat HeapObj) (p p' : nat) (e e' : double * list byte) :
  holds hp p e -> holds hp p' e' -> p <> p' ->
  holds (delete p (delete (S p) hp)) p' e'.
Proof.
  intros [Hp Hb] [Hp' Hb'] Hne. unfold holds.
  assert (S p <> p') by (intros <-; congruence).
  assert (p <> S p') by (intros ->; congruence).
  rewrite !lookup_delete_ne by lia. split; assumption.
Qed.

Lemma holds_after_alloc (hp : gmap nat HeapObj) (a p : nat) (e : double * list byte)
  (x y : HeapObj) :
  hp !! a = None -> hp !! S a = None -> holds hp p e ->
  holds (<[S a := y]> (<[a := x]> hp)) p e.
Proof.
  intros Ha Hb [Hp Hq]. unfold holds.
  assert (a <> p) by (intros ->; congruence).
  assert (S a <> p) by (intros <-; congruence).
  assert (a <> S p) by (intros ->; congruence).
  rewrite !lookup_insert_ne by lia. split; assumption.
Qed.

Lemma holds_all_after_free (hp : gmap nat HeapObj) (p : nat) (e : double * list byte)
  (q : list nat) (es : list (double * list byte)) :
  holds hp p e -> p ∉ q -> Forall2 (holds hp) q es ->
  Forall2 (holds (delete p (delete (S p) hp))) q es.
Proof.
  intros Hp Hnin Hall. induction Hall as [|p' e' q' es' Hp' _ IH]; constructor.
  - apply not_elem_of_cons in Hnin as [Hne _].
    now apply (holds_after_free _ p p' e e').
  - apply IH. now apply not_elem_of_cons in Hnin as [_ Hnin].
Qed.

Lemma holds_all_after_alloc (hp : gmap nat HeapObj) (a : nat) (x y : HeapObj)
  (q : list nat) (es : list (double * list byte)) :
  hp !! a = None -> hp !! S a = None -> Forall2 (holds hp) q es ->
  Forall2 (holds (<[S a := y]> (<[a := x]> hp))) q es.
Proof.
  intros Ha Hb Hall. induction Hall as [|p e q' es' Hp _ IH]; constructor.
  - now apply holds_after_alloc.
  - exact IH.
Qed.

(** The function is live, with handler [f] and queue [q]. *)
Lemma queueOf_live (s : NodeMidiInput) (f : option nat) (c : bool) (q : list nat) :
  handleMessage s = Some (mkTSFN f c q) -> queueOf s = q.
Proof. intros H. unfold queueOf. now rewrite H. Qed.

Lemma dispatchOne_step (s : NodeMidiInput) (f p : nat) (q : list nat)
  (e : double * list byte) (es : list (double * list byte)) :
  handleMessage s = Some (mkTSFN (Some f) false (p :: q)) ->
  queueOk s (e :: es) ->
  exists s',
    dispatchOne s = Some s' /\
    handleMessage s' = Some (mkTSFN (Some f) false q) /\
    queueOk s' es /\
    trace s' = trace s ++ [EvCall f (fst e) (snd e); EvDeleteArray (S p); EvDelete p].
Proof.
  intros Hm (Hnd & Hall & Hfresh).
  rewrite (queueOf_live _ _ _ _ Hm) in Hnd, Hall.
  apply Forall2_cons in Hall as [Hp Hall].
  apply NoDup_cons in Hnd as [Hnin Hnd].
  unfold dispatchOne. rewrite Hm. simpl.
  rewrite (CallbackJs_delivered f _ p e) by exact Hp. simpl.
  eexists. split; [reflexivity|]. simpl.
  split; [reflexivity|]. split; [|reflexivity].
  unfold queueOk, queueOf. simpl. repeat split.
  - exact Hnd.
  - now apply (holds_all_after_free _ p e).
  - intros a Ha. rewrite !lookup_delete_None. right. right. now apply Hfresh.
Qed.

Lemma Callback_step (s : NodeMidiInput) (f : nat) (q : list nat)
  (dt : double) (msg : list byte) (es : list (double * list byte)) :
  handleMessage s = Some (mkTSFN (Some f) false q) ->
  queueOk s es ->
  exists s' : NodeMidiInput,
    Callback dt msg s = Some s' /\
    handleMessage s' = Some (mkTSFN (Some f) false (q ++ [brk s])) /\
    queueOk s' (es ++ [(dt, msg)]) /\
    trace s' = trace s /\
    heap s' = <[S (brk s) := HBytes msg]>
                (<[brk s := HMidiMessage dt (Some (S (brk s))) (length msg)]> (heap s)) /\
    brk s' = S (S (brk s)) /\
    handle s' = handle s /\ configured s' = configured s /\
    emitMessage s' = emitMessage s /\ freed s' = freed s.
Proof.
  intros Hm (Hnd & Hall & Hfresh).
  rewrite (queueOf_live _ _ _ _ Hm) in Hnd, Hall.
  assert (Ha : heap s !! brk s = None) by (apply Hfresh; lia).
  assert (Hb : heap s !! S (brk s) = None) by (apply Hfresh; lia).
  unfold Callback. rewrite Hm. simpl. rewrite firstn_all.
  eexists. split; [reflexivity|]. simpl.
  split; [reflexivity|]. split; [|repeat split].
  unfold queueOk, queueOf. simpl. repeat split.
  - apply NoDup_app. split; [exact Hnd|]. split; [|apply NoDup_singleton].
    intros p Hp Hin. apply list_elem_of_singleton in Hin. subst p.
    apply list_elem_of_lookup in Hp as [i Hi].
    destruct (Forall2_lookup_l _ _ _ _ _ Hall Hi) as (e & _ & [He _]). congruence.
  - apply Forall2_app.
    + now apply holds_all_after_alloc.
    + constructor; [|constructor]. unfold holds. simpl.
      rewrite lookup_insert_ne by lia.
      rewrite !lookup_insert_eq. split; reflexivity.
  - intros a Hge. rewrite !lookup_insert_ne by lia. apply Hfresh. lia.
Qed.

Lemma runBridge_pending (sched : list BridgeStep) :
  forall (s : NodeMidiInput) (f : nat) (q : list nat) (es : list (double * list byte)),
    handleMessage s = Some (mkTSFN (Some f) false q) ->
    queueOk s es ->
    exists s' q' es',
      runBridge sched s = Some s' /\
      handleMessage s' = Some (mkTSFN (Some f) false q') /\
      queueOk s' es' /\
      calls (trace s') ++ map (tag f) es'
        = calls (trace s) ++ map (tag f) (es ++ delivered sched).
Proof.
  induction sched as [|b sched IH]; intros s f q es Hm Hok; simpl.
  - exists s, q, es. rewrite app_nil_r.
    split; [reflexivity|]. split; [exact Hm|]. split; [exact Hok | reflexivity].
  - destruct b as [dt msg|]; simpl.
    + destruct (Callback_step s f q dt msg es Hm Hok) as (s1 & Hcb & Hm' & Hok' & Ht & _).
      rewrite Hcb. simpl.
      destruct (IH _ f _ _ Hm' Hok') as (s' & q' & es' & Hrun & Hm'' & Hok'' & Hc).
      exists s', q', es'.
      split; [exact Hrun|]. split; [exact Hm''|]. split; [exact Hok''|].
      rewrite Hc, Ht, <- app_assoc. reflexivity.
    + destruct q as [|p q].
      * assert (Hd : dispatchOne s = Some s) by (unfold dispatchOne; now rewrite Hm).
        rewrite Hd. simpl. now apply (IH s f [] es).
      * destruct es as [|e es].
        { destruct Hok as (_ & Hall & _).
          rewrite (queueOf_live _ _ _ _ Hm) in Hall. inversion Hall. }
        destruct (dispatchOne_step s f p q e es Hm Hok) as (s1 & Hd & Hm1 & Hok1 & Ht1).
        rewrite Hd. simpl.
        destruct (IH _ f _ _ Hm1 Hok1) as (s' & q' & es' & Hrun & Hm'' & Hok'' & Hc).
        exists s', q', es'.
        split; [exact Hrun|]. split; [exact Hm''|]. split; [exact Hok''|].
        rewrite Hc, Ht1, calls_app. simpl. rewrite <- app_assoc. reflexivity.
Qed.

Lemma drain_pending (es : list (double * list byte)) :
  forall (s : NodeMidiInput) (f : nat) (q : list nat),
    handleMessage s = Some (mkTSFN (Some f) false q) ->
    queueOk s es ->
    exists s',
      drain s = Some s' /\
      queueOf s' = [] /\
      calls (trace s') = calls (trace s) ++ map (tag f) es.
Proof.
  unfold drain.
  induction es as [|e es IH]; intros s f q Hm Hok;
    pose proof Hok as (_ & Hall & _);
    rewrite (queueOf_live _ _ _ _ Hm) in Hall |- *;
    inversion Hall as [|p e0 q0 es0 Hp Hall' Hq]; subst; simpl.
  - exists s. rewrite app_nil_r.
    split; [reflexivity|]. split; [exact (queueOf_live _ _ _ _ Hm) | reflexivity].
  - destruct (dispatchOne_step s f p q0 e es Hm Hok) as (s1 & Hd & Hm1 & Hok1 & Ht1).
    rewrite Hd. simpl.
    destruct (IH s1 f q0 Hm1 Hok1) as (s' & Hrun & Hq' & Hc).
    rewrite (queueOf_live _ _ _ _ Hm1) in Hrun.
    exists s'. split; [exact Hrun|]. split; [exact Hq'|].
    rewrite Hc, Ht1, calls_app. simpl. rewrite <- app_assoc. reflexivity.
Qed.


(** ** C1 *)

(** C1, as stated, fails: a message received while the bridge is armed
    and still queued when closePort() runs is never handed to the
    handler, whatever the loop and the finalization do afterwards. *)
Lemma C1_counterexample :
  armed (opened twoPorts) /\
  driverCalls [DriverCalls (Finite 0) noteOn; Api (CallClosePort []);
               LoopTurn; Finalization; LoopTurn] = [(Finite 0, noteOn)] /\
  exists s' : NodeMidiInput,
    runSystem [DriverCalls (Finite 0) noteOn; Api (CallClosePort []);
               LoopTurn; Finalization; LoopTurn] (opened twoPorts) = Some s' /\
    calls (trace s') = [].
Proof.
  split; [|split; [reflexivity|]].
  - split; [eexists; split; reflexivity | eexists; split; reflexivity].
  - eexists. split; [vm_compute; reflexivity | reflexivity].
Qed.

(** C1 (amended): from a state whose thread-safe function is live with
    handler [f], as long as the bridge is not closed, whatever way the
    driver's deliveries and the event loop's turns interleave, every
    step is defined, and once the loop has emptied the queue the handler
    has been invoked exactly with the envelopes that were pending
    followed by the delivered messages: one invocation per message, in
    delivery order, each with the delivery's timestamp and with the
    bytes of the driver's buffer, no more and no fewer; before that point
    the invocations made so far are an initial part of that list. *)
Theorem C1_each_message_handled_once_in_order
  (s : NodeMidiInput) (f : nat) (q : list nat) (es : list (double * list byte))
  (sched : list BridgeStep) :
  handleMessage s = Some (mkTSFN (Some f) false q) ->
  queueOk s es ->
  exists (s1 s2 : NodeMidiInput) (pending : list (double * list byte)),
    runBridge sched s = Some s1 /\
    calls (trace s1) ++ map (tag f) pending
      = calls (trace s) ++ map (tag f) (es ++ delivered sched) /\
    drain s1 = Some s2 /\
    queueOf s2 = [] /\
    calls (trace s2) = calls (trace s) ++ map (tag f) (es ++ delivered sched).
Proof.
  intros Hm Hok.
  destruct (runBridge_pending sched s f q es Hm Hok)
    as (s1 & q1 & es1 & Hrun & Hm1 & Hok1 & Hc1).
  destruct (drain_pending es1 s1 f q1 Hm1 Hok1) as (s2 & Hdrain & Hq2 & Hc2).
  exists s1, s2, es1.
  split; [exact Hrun|]. split; [exact Hc1|]. split; [exact Hdrain|].
  split; [exact Hq2|]. now rewrite Hc2.
Qed.

Lemma C1_witness :
  exists s1 s2 : NodeMidiInput,
    runBridge [Deliver (Finite 0) noteOn] (opened twoPorts) = Some s1 /\
    drain s1 = Some s2 /\
    calls (trace s2) = [(7%nat, Finite 0, noteOn)].
Proof.
  assert (Hok : queueOk (opened twoPorts) []).
  { split; [constructor|]. split; [constructor|]. intros a _. reflexivity. }
  destruct (C1_each_message_handled_once_in_order (opened twoPorts) 7 [] []
              [Deliver (Finite 0) noteOn] eq_refl Hok)
    as (s1 & s2 & pending & Hrun & _ & Hdrain & _ & Hcalls).
  exists s1, s2. split; [exact Hrun|]. split; [exact Hdrain | exact Hcalls].
Defined.

(** ** C6 *)

(** C6: when [CallbackJs] is entered without an environment or without a
    handler, for an envelope that is still allocated, it returns, the
    handler is not invoked, the byte buffer is freed once and then the
    MidiMessage is freed once, neither is on the heap afterwards, and
    nothing else of the object changes. *)
Theorem C6_aborted_delivery_frees_envelope
  (env : bool) (callback : option nat) (s : NodeMidiInput)
  (p b len : nat) (dt : double) (bs : list byte) :
  env = false \/ callback = None ->
  heap s !! p = Some (HMidiMessage dt (Some b) len) ->
  heap s !! b = Some (HBytes bs) ->
  exists s' : NodeMidiInput,
    CallbackJs env callback (Some p) s = Some s' /\
    emitted s s' = [EvDeleteArray b; EvDelete p] /\
    calls (trace s') = calls (trace s) /\
    heap s' = delete p (delete b (heap s)) /\
    heap s' !! p = None /\ heap s' !! b = None /\
    handle s' = handle s /\ configured s' = configured s /\
    handleMessage s' = handleMessage s.
Proof.
  intros Hgone Hp Hb.
  rewrite (CallbackJs_aborted env callback s p b len dt bs Hgone Hp Hb).
  eexists. split; [reflexivity|]. simpl.
  split; [now apply emitted_app|].
  split; [rewrite calls_app; simpl; apply app_nil_r|].
  split; [reflexivity|].
  split; [apply lookup_delete_eq|].
  split; [|repeat split].
  rewrite lookup_delete_None. right. apply lookup_delete_eq.
Qed.

Lemma C6_witness :
  exists s' : NodeMidiInput,
    CallbackJs false None (Some 0%nat) queuedNote = Some s' /\
    emitted queuedNote s' = [EvDeleteArray 1; EvDelete 0] /\
    calls (trace s') = [].
Proof.
  destruct (C6_aborted_delivery_frees_envelope false None
              queuedNote 0 1 3 (Finite 0) noteOn
              (or_introl eq_refl) eq_refl eq_refl)
    as (s' & Hrun & Hem & Hcalls & _).
  exists s'. split; [exact Hrun|]. split; [exact Hem | exact Hcalls].
Defined.

(** The same on the whole queue of an aborted function: every queued
    envelope is freed and the handler is not invoked. *)
Lemma emptyQueue_frees (es : list (double * list byte)) :
  forall (q : list nat) (s : NodeMidiInput),
    NoDup q ->
    Forall2 (holds (heap s)) q es ->
    exists s' : NodeMidiInput,
      emptyQueue q s = Some s' /\
      calls (trace s') = calls (trace s) /\
      (forall a : nat, heap s !! a = None -> heap s' !! a = None) /\
      (forall p : nat, p ∈ q -> heap s' !! p = None /\ heap s' !! S p = None).
Proof.
  induction es as [|e es IH]; intros q s Hnd Hall;
    inversion Hall as [|p e0 q0 es0 Hp Hall' Hq]; subst; simpl.
  - exists s. split; [reflexivity|]. split; [reflexivity|]. split; [auto|].
    intros p Hin. now apply elem_of_nil in Hin.
  - apply NoDup_cons in Hnd as [Hnin Hnd].
    destruct Hp as [Hp Hb].
    rewrite (CallbackJs_aborted false None s p (S p) _ _ _ (or_introl eq_refl) Hp Hb).
    simpl.
    set (s1 := mkInput (handle s) (configured s) (handleMessage s) (emitMessage s)
                 (delete p (delete (S p) (heap s))) (brk s)
                 (trace s ++ [EvDeleteArray (S p); EvDelete p]) (freed s)).
    destruct (IH q0 s1 Hnd (holds_all_after_free _ p e q0 es (conj Hp Hb) Hnin Hall'))
      as (s' & Hrun & Hc & Hnone & Hfreed).
    exists s'. split; [exact Hrun|]. simpl in Hc, Hnone.
    split; [rewrite Hc, calls_app; simpl; apply app_nil_r|].
    split.
    + intros a Ha. apply Hnone. rewrite !lookup_delete_None. auto.
    + intros p' Hin. apply elem_of_cons in Hin as [-> | Hin]; [|now apply Hfreed].
      split; apply Hnone.
      * apply lookup_delete_eq.
      * rewrite lookup_delete_None. right. apply lookup_delete_eq.
Qed.

Lemma finalizeQueue_drops (s : NodeMidiInput) (cb : option nat) (q : list nat)
  (es : list (double * list byte)) :
  handleMessage s = Some (mkTSFN cb true q) ->
  queueOk s es ->
  exists s' : NodeMidiInput,
    finalizeQueue s = Some s' /\
    calls (trace s') = calls (trace s) /\
    (forall p : nat, p ∈ q -> heap s' !! p = None /\ heap s' !! S p = None).
Proof.
  intros Hm (Hnd & Hall & _).
  rewrite (queueOf_live _ _ _ _ Hm) in Hnd, Hall.
  unfold finalizeQueue. rewrite Hm. simpl.
  destruct (emptyQueue_frees es q
              (with_handleMessage (Some (mkTSFN cb true [])) s) Hnd Hall)
    as (s' & Hrun & Hc & _ & Hfreed).
  rewrite Hrun. simpl.
  eexists. split; [reflexivity|]. split; [exact Hc | exact Hfreed].
Qed.

(** * Further properties of the binding *)

(** ** Construction *)

Lemma inert_invoke (o : Op) (s : NodeMidiInput) :
  handle s = None -> snd (invoke o s) = s.
Proof.
  intros Hh. destruct o; simpl;
    unfold GetPortCount, GetPortName, OpenPort, OpenVirtualPort, ClosePort, Destroy,
      IsPortOpen, IgnoreTypes, closePortAndRemoveCallback, throw;
    rewrite Hh; reflexivity.
Qed.

Lemma inert_run (ops : list Op) (s : NodeMidiInput) :
  handle s = None -> run ops s = s.
Proof.
  intros Hh. induction ops as [|o ops IH]; simpl; [reflexivity|].
  now rewrite (inert_invoke o s Hh).
Qed.

(** X1: a construction that is given no function as first argument, or
    whose driver cannot be created, throws ("Expected a callback" or
    "Failed to initialise RtMidi"), keeps no handler and no device handle,
    and the object stays as it is under every later sequence of calls. *)
Theorem constructor_failure_is_inert (d : Device) (info : list JsValue) :
  (forall (f : nat) (rest : list JsValue), info = JsFunction f :: rest ->
     dev_init d = false) ->
  let s := snd (constructor d info) in
  (exists e : JsError,
      fst (constructor d info) = Throw e /\
      err_class e = ClsError /\
      (errorKind e = Some InvalidArgument \/ errorKind e = Some ConstructionFailure)) /\
  handle s = None /\ emitMessage s = None /\ trace s = [] /\
  (forall ops : list Op, run ops s = s).
Proof.
  intros Hbad s.
  assert (Hh : handle s = None /\ emitMessage s = None /\ trace s = [] /\
               exists e : JsError,
                 fst (constructor d info) = Throw e /\ err_class e = ClsError /\
                 (errorKind e = Some InvalidArgument \/
                  errorKind e = Some ConstructionFailure)).
  { unfold s, constructor, throw.
    destruct info as [|[| | | | |f|] rest]; simpl;
      try (repeat split; eexists; repeat split; left; reflexivity).
    unfold Driver.create. rewrite (Hbad f rest eq_refl). simpl.
    repeat split. eexists. repeat split. right. reflexivity. }
  destruct Hh as (Hh & He & Ht & Hex).
  split; [exact Hex|]. split; [exact Hh|]. split; [exact He|]. split; [exact Ht|].
  intros ops. now apply inert_run.
Qed.

Lemma constructor_failure_is_inert_witness :
  run [CallOpenVirtualPort [JsString "Test"]; CallIsPortOpen []]
      (snd (constructor twoPorts [JsNumber NaN]))
    = snd (constructor twoPorts [JsNumber NaN]).
Proof.
  assert (Hbad : forall (f : nat) (rest : list JsValue),
             [JsNumber NaN] = JsFunction f :: rest -> dev_init twoPorts = false)
    by (intros f rest H; discriminate H).
  destruct (constructor_failure_is_inert twoPorts [JsNumber NaN] Hbad)
    as (_ & _ & _ & _ & Hrun).
  exact (Hrun _).
Defined.

(** ** Argument checks and queries *)

(** X2: openPort and getPortName throw the type error "First argument
    must be an integer" when called without arguments or with a first
    argument that is not a number, openVirtualPort throws "First argument
    must be a string" unless the first argument is a string, and
    ignoreTypes throws "Arguments must be boolean" unless it gets exactly
    three booleans; in each case the object is left untouched. *)
Theorem argument_errors_change_nothing
  (s : NodeMidiInput) (h : RtMidiIn) (info : list JsValue) :
  handle s = Some h ->
  ((forall (d : double) (rest : list JsValue), info <> JsNumber d :: rest) ->
     OpenPort info s = (Throw (mkJsError ClsTypeError msg_must_be_integer), s) /\
     GetPortName info s = (Throw (mkJsError ClsTypeError msg_must_be_integer), s)) /\
  ((forall (name : string) (rest : list JsValue), info <> JsString name :: rest) ->
     OpenVirtualPort info s = (Throw (mkJsError ClsTypeError msg_must_be_string), s)) /\
  ((forall a b c : bool, info <> [JsBoolean a; JsBoolean b; JsBoolean c]) ->
     IgnoreTypes info s = (Throw (mkJsError ClsTypeError msg_must_be_boolean), s)) /\
  errorKind (mkJsError ClsTypeError msg_must_be_integer) = Some InvalidArgument /\
  errorKind (mkJsError ClsTypeError msg_must_be_string) = Some InvalidArgument /\
  errorKind (mkJsError ClsTypeError msg_must_be_boolean) = Some InvalidArgument.
Proof.
  intros Hh. split; [|split; [|split; [|repeat split]]].
  - intros Hno. unfold OpenPort, GetPortName, throw. rewrite Hh.
    destruct info as [|[] rest]; try (split; reflexivity).
    now destruct (Hno d rest).
  - intros Hno. unfold OpenVirtualPort, throw. rewrite Hh.
    destruct info as [|[] rest]; try reflexivity.
    now destruct (Hno s0 rest).
  - intros Hno. unfold IgnoreTypes, throw. rewrite Hh.
    destruct info as [|[] [|[] [|[] [|? ?]]]]; try reflexivity.
    now destruct (Hno b b0 b1).
Qed.

Lemma argument_errors_change_nothing_witness :
  IgnoreTypes [JsBoolean true; JsBoolean false] (opened twoPorts)
    = (Throw (mkJsError ClsTypeError msg_must_be_boolean), opened twoPorts) /\
  OpenPort [JsString "0"] (opened twoPorts)
    = (Throw (mkJsError ClsTypeError msg_must_be_integer), opened twoPorts).
Proof.
  assert (Hh : handle (opened twoPorts)
               = Some (mkRtMidiIn twoPorts true true (true, true, true)))
    by reflexivity.
  split.
  - destruct (argument_errors_change_nothing (opened twoPorts) _
                [JsBoolean true; JsBoolean false] Hh) as (_ & _ & Hb & _).
    apply Hb. intros a b c H. discriminate H.
  - destruct (argument_errors_change_nothing (opened twoPorts) _
                [JsString "0"] Hh) as (Hn & _).
    apply Hn. intros d rest H. discriminate H.
Defined.

(** X3: getPortCount, getPortName and isPortOpen never change the object,
    whatever its state and whatever their arguments; getPortCount and
    isPortOpen ignore their arguments altogether. *)
Theorem queries_change_nothing (s : NodeMidiInput) (info info' : list JsValue) :
  snd (GetPortCount info s) = s /\
  snd (GetPortName info s) = s /\
  snd (IsPortOpen info s) = s /\
  GetPortCount info s = GetPortCount info' s /\
  IsPortOpen info s = IsPortOpen info' s.
Proof.
  unfold GetPortCount, GetPortName, IsPortOpen, throw.
  destruct (handle s) as [h|]; repeat split.
  destruct info as [|[] rest]; try reflexivity.
  simpl. destruct (Driver.getPortName _ h); reflexivity.
Qed.

(** ** Closing and tearing down *)

(** X4: closing twice tears the bridge down once: after one pass through
    closePortAndRemoveCallback a second pass only asks the driver to close
    the port again; it cancels no registration and aborts no thread-safe
    function, and closePort() returns normally both times. *)
Theorem close_twice_tears_down_once
  (s : NodeMidiInput) (h : RtMidiIn) (info info' : list JsValue) :
  handle s = Some h ->
  let s1 := closePortAndRemoveCallback s in
  closePortAndRemoveCallback s1 = emit [EvClosePort] s1 /\
  fst (ClosePort info s) = Return JsNull /\
  ClosePort info' (snd (ClosePort info s)) = (Return JsNull, emit [EvClosePort] s1) /\
  occurrences isTsfnAbort (emitted s (snd (ClosePort info' (snd (ClosePort info s)))))
    = b2n (configured s).
Proof.
  intros Hh s1.
  assert (Hs1 : closePortAndRemoveCallback s1 = emit [EvClosePort] s1).
  { unfold s1, closePortAndRemoveCallback. rewrite Hh. simpl.
    destruct (configured s) eqn:Hcfg; simpl; [reflexivity|].
    rewrite Hcfg. reflexivity. }
  assert (Hc : ClosePort info s = (Return JsNull, s1))
    by (unfold ClosePort; now rewrite Hh).
  destruct (handle_close s h Hh) as (h1 & Hh1 & _). fold s1 in Hh1.
  split; [exact Hs1|]. split; [now rewrite Hc|].
  rewrite Hc. simpl. unfold ClosePort at 1 2. rewrite Hh1, Hs1. split; [reflexivity|].
  simpl. rewrite (emitted_app s (emit [EvClosePort] s1)
                    (EvClosePort ::
                       (if configured s then [EvCancelCallback; EvTsfnAbort; EvTsfnRelease]
                        else []) ++ [EvClosePort])).
  - destruct (configured s); reflexivity.
  - simpl. unfold s1. rewrite (trace_close s h Hh).
    rewrite <- app_assoc. reflexivity.
Qed.

Lemma close_twice_tears_down_once_witness :
  emitted (opened twoPorts)
    (snd (ClosePort [] (snd (ClosePort [] (opened twoPorts)))))
  = [EvClosePort; EvCancelCallback; EvTsfnAbort; EvTsfnRelease; EvClosePort].
Proof.
  assert (Hh : handle (opened twoPorts)
               = Some (mkRtMidiIn twoPorts true true (true, true, true)))
    by reflexivity.
  destruct (close_twice_tears_down_once (opened twoPorts) _ [] [] Hh)
    as (_ & _ & Htwice & _).
  rewrite Htwice. reflexivity.
Defined.

(** X5: the destructor tears down exactly as destroy() does (the same
    calls to the driver and the bridge in the same order, the same
    values left in the members) and then ends the object's life: a
    finalizer that runs after destroy() changes nothing, one that runs
    after the destructor uses freed memory. *)
Theorem destructor_tears_down_like_destroy (s : NodeMidiInput) (info : list JsValue) :
  destructor s = with_freed true (snd (Destroy info s)) /\
  emitted s (destructor s) = emitted s (snd (Destroy info s)) /\
  handle (destructor s) = None /\
  (freed s = false ->
   sysStep (Api TsfnFinalizer) (snd (Destroy info s)) = Some (snd (Destroy info s))) /\
  sysStep (Api TsfnFinalizer) (destructor s) = None.
Proof.
  assert (Heq : destructor s = with_freed true (snd (Destroy info s))).
  { unfold destructor, Destroy. destruct (handle s) as [h|] eqn:Hh; simpl.
    - destruct (handle_close s h Hh) as (h' & Hh' & _). now rewrite Hh'.
    - unfold closePortAndRemoveCallback. now rewrite !Hh. }
  assert (Hnone : handle (snd (Destroy info s)) = None) by apply handle_Destroy.
  split; [exact Heq|]. split; [now rewrite Heq|]. split; [now rewrite Heq|].
  split.
  - intros Hlive.
    assert (Hf : freed (snd (Destroy info s)) = false).
    { unfold Destroy. destruct (handle s) as [h|] eqn:Hh; simpl; [|exact Hlive].
      unfold closePortAndRemoveCallback. rewrite Hh. simpl.
      now destruct (configured s). }
    unfold sysStep. rewrite Hf. simpl.
    unfold closePortAndRemoveCallback. now rewrite Hnone.
  - now rewrite Heq.
Qed.

Lemma destructor_tears_down_like_destroy_witness :
  sysStep (Api TsfnFinalizer) (snd (Destroy [] (opened twoPorts)))
    = Some (snd (Destroy [] (opened twoPorts))) /\
  sysStep (Api TsfnFinalizer) (destructor (opened twoPorts)) = None.
Proof.
  destruct (destructor_tears_down_like_destroy (opened twoPorts) [])
    as (_ & _ & _ & Hd & Hf).
  split; [exact (Hd eq_refl) | exact Hf].
Defined.

(** ** What every history of calls keeps *)

Lemma occurrences_app (P : Event -> bool) (t u : list Event) :
  occurrences P (t ++ u) = (occurrences P t + occurrences P u)%nat.
Proof.
  induction t as [|e t IH]; simpl; [reflexivity|]. rewrite IH. lia.
Qed.

Lemma balanced_quiet (s s' : NodeMidiInput) (es : list Event) :
  trace s' = trace s ++ es -> configured s' = configured s ->
  occurrences isTsfnNew es = 0%nat -> occurrences isTsfnAbort es = 0%nat ->
  occurrences isSetCallback es = 0%nat -> occurrences isCancel es = 0%nat ->
  occurrences isTsfnRelease es = 0%nat ->
  balanced s -> balanced s'.
Proof.
  intros Ht Hc H1 H2 H3 H4 H5 (B1 & B2 & B3). unfold balanced.
  rewrite Ht, Hc, !occurrences_app. lia.
Qed.

Ltac by_counts B1 B2 B3 :=
  unfold balanced; simpl; rewrite ?occurrences_app; simpl;
  clear - B1 B2 B3; lia.

Lemma reachInv_setupCallback (d : Device) (s : NodeMidiInput) (h : RtMidiIn) :
  handle s = Some h -> reachInv d s -> reachInv d (setupCallback s).
Proof.
  intros Hh (Hp & Hf & B1 & B2 & B3). rewrite Hh in Hp. destruct Hp as [Hd Hc].
  destruct (setupCallback_handle s h Hh) as (h1 & Hh1 & Hdev & Hconn).
  unfold reachInv, balanced.
  rewrite Hh1, trace_setupCallback, setupCallback_configured.
  split; [split; [congruence | reflexivity]|]. split.
  - rewrite forallb_app, Hf. now destruct (configured s).
  - destruct (configured s); simpl in B1, B2; by_counts B1 B2 B3.
Qed.

Lemma connected_close (s : NodeMidiInput) (h : RtMidiIn) :
  handle s = Some h ->
  exists h', handle (closePortAndRemoveCallback s) = Some h' /\
             device h' = device h /\ connected h' = false.
Proof.
  intros Hh. unfold closePortAndRemoveCallback. rewrite Hh. simpl.
  destruct (configured s); simpl; eexists; repeat split.
Qed.

Lemma reachInv_close (d : Device) (s : NodeMidiInput) :
  reachInv d s -> reachInv d (closePortAndRemoveCallback s).
Proof.
  intros Hinv. destruct (handle s) as [h|] eqn:Hh.
  - destruct Hinv as (Hp & Hf & B1 & B2 & B3). rewrite Hh in Hp.
    destruct Hp as [Hd Hc].
    destruct (connected_close s h Hh) as (h1 & Hh1 & Hdev & Hconn).
    unfold reachInv, balanced.
    rewrite Hh1, (trace_close s h Hh), (configured_close s h Hh).
    split; [split; [congruence | congruence]|]. split.
    + rewrite forallb_app, Hf. now destruct (configured s).
    + destruct (configured s); simpl in B1, B2; by_counts B1 B2 B3.
  - unfold closePortAndRemoveCallback. now rewrite Hh.
Qed.

Lemma reachInv_opened (d : Device) (s : NodeMidiInput) (h h' : RtMidiIn) (e : Event) :
  handle s = Some h -> device h' = device h ->
  configured s = true -> isOpenEvent e = true -> openInRange d e = true ->
  reachInv d s -> reachInv d (with_handle (Some h') (emit [e] s)).
Proof.
  intros Hh Hdev Hcfg He Hr (Hp & Hf & B1 & B2 & B3). rewrite Hh in Hp.
  destruct Hp as [Hd Hc]. split; [|split].
  - simpl. split; [congruence | auto].
  - simpl. rewrite forallb_app, Hf. simpl. now rewrite Hr.
  - unfold balanced. simpl trace. simpl configured.
    destruct e; try discriminate; by_counts B1 B2 B3.
Qed.

Lemma reachInv_open_failed (d : Device) (s : NodeMidiInput) (e : Event) :
  configured s = true -> isOpenEvent e = true -> openInRange d e = true ->
  reachInv d s -> reachInv d (emit [e] s).
Proof.
  intros Hcfg He Hr (Hp & Hf & B1 & B2 & B3). split; [|split].
  - exact Hp.
  - simpl. rewrite forallb_app, Hf. simpl. now rewrite Hr.
  - unfold balanced. simpl trace. simpl configured.
    destruct e; try discriminate; by_counts B1 B2 B3.
Qed.

Lemma reachInv_invoke (d : Device) (o : Op) (s : NodeMidiInput) :
  reachInv d s -> reachInv d (snd (invoke o s)).
Proof.
  intros Hinv. destruct o as [info|info|info|info|info|info|info|info|]; simpl.
  - unfold GetPortCount, throw. destruct (handle s); exact Hinv.
  - unfold GetPortName, throw. destruct (handle s) as [h|]; [|exact Hinv].
    destruct info as [|[] ?]; try exact Hinv.
    simpl. destruct (Driver.getPortName _ h); exact Hinv.
  - unfold OpenPort, throw. destruct (handle s) as [h|] eqn:Hh; [|exact Hinv].
    destruct info as [|[] ?]; try exact Hinv.
    simpl. destruct (Z.geb_spec (ToUint32 d0) (Driver.getPortCount h)) as [_|Hlt];
      [exact Hinv|].
    destruct (setupCallback_handle s h Hh) as (h1 & Hh1 & Hdev1 & _).
    pose proof (reachInv_setupCallback d s h Hh Hinv) as Hs.
    assert (Hr : openInRange d (EvOpenPort (ToUint32 d0)) = true).
    { destruct Hinv as (Hp & _). rewrite Hh in Hp. destruct Hp as [Hd _].
      pose proof (ToUint32_range d0) as Hrg. unfold Driver.getPortCount in Hlt.
      rewrite Hd in Hlt. simpl. apply andb_true_iff. split; [lia|].
      apply Z.ltb_lt. exact Hlt. }
    simpl. rewrite Hh1. simpl. unfold Driver.openPort.
    destruct (dev_openPort _ _); simpl.
    + apply (reachInv_opened d (setupCallback s) h1); auto using setupCallback_configured.
    + apply reachInv_open_failed; auto using setupCallback_configured.
  - unfold OpenVirtualPort, throw. destruct (handle s) as [h|] eqn:Hh; [|exact Hinv].
    destruct info as [|[] ?]; try exact Hinv.
    destruct (setupCallback_handle s h Hh) as (h1 & Hh1 & Hdev1 & _).
    pose proof (reachInv_setupCallback d s h Hh Hinv) as Hs.
    simpl. rewrite Hh1. simpl. unfold Driver.openVirtualPort.
    destruct (dev_openVirtualPort _ _); simpl.
    + apply (reachInv_opened d (setupCallback s) h1); auto using setupCallback_configured.
    + apply reachInv_open_failed; auto using setupCallback_configured.
  - unfold ClosePort, throw. destruct (handle s); [|exact Hinv].
    simpl. now apply reachInv_close.
  - unfold Destroy. destruct (handle s) as [h|] eqn:Hh; [|exact Hinv].
    simpl. pose proof (reachInv_close d s Hinv) as (_ & Hf & B1 & B2 & B3).
    split; [exact I|]. split.
    + simpl. rewrite forallb_app, Hf. reflexivity.
    + unfold balanced. simpl trace. simpl configured. by_counts B1 B2 B3.
  - unfold IsPortOpen, throw. destruct (handle s); exact Hinv.
  - unfold IgnoreTypes, throw. destruct (handle s) as [h|] eqn:Hh; [|exact Hinv].
    destruct info as [|[] [|[] [|[] [|? ?]]]]; try exact Hinv.
    simpl. destruct Hinv as (Hp & Hf & B1 & B2 & B3). rewrite Hh in Hp.
    split; [exact Hp|]. split.
    + simpl. rewrite forallb_app, Hf. reflexivity.
    + unfold balanced. simpl trace. simpl configured. by_counts B1 B2 B3.
  - now apply reachInv_close.
Qed.

Lemma reachInv_constructor (d : Device) (info : list JsValue) :
  reachInv d (snd (constructor d info)).
Proof.
  unfold constructor, throw, Driver.create.
  destruct info as [|[] ?]; simpl; try (repeat split; reflexivity).
  destruct (dev_init d); simpl; repeat split; try reflexivity. discriminate.
Qed.

Lemma reachInv_run (d : Device) (ops : list Op) (s : NodeMidiInput) :
  reachInv d s -> reachInv d (run ops s).
Proof.
  revert s. induction ops as [|o ops IH]; intros s Hinv; simpl.
  - exact Hinv.
  - apply IH. now apply reachInv_invoke.
Qed.

(** X6: whatever the consumer calls and with whatever arguments, the
    driver is only ever asked to open a port whose number is below the
    count it reports; with no ports it is never asked to open one by
    number. *)
Theorem driver_opens_only_listed_ports
  (d : Device) (info : list JsValue) (ops : list Op) (n : Z) :
  In (EvOpenPort n) (trace (run ops (snd (constructor d info)))) ->
  0 <= n < dev_portCount d mod two32 /\ dev_portCount d mod two32 <> 0.
Proof.
  intros Hin.
  destruct (reachInv_run d ops _ (reachInv_constructor d info)) as (_ & Hf & _).
  rewrite forallb_forall in Hf. specialize (Hf _ Hin). simpl in Hf.
  apply andb_true_iff in Hf as [H0 H1].
  apply Z.leb_le in H0. apply Z.ltb_lt in H1. lia.
Qed.

Lemma driver_opens_only_listed_ports_witness :
  0 <= 1 < dev_portCount twoPorts mod two32 /\ dev_portCount twoPorts mod two32 <> 0.
Proof.
  apply (driver_opens_only_listed_ports twoPorts [JsFunction 7%nat]
           [CallOpenPort [JsNumber (Finite (3 # 2))]] 1).
  vm_compute. right. right. left. reflexivity.
Defined.

(** X7: in every state reached from construction by the consumer's
    calls, the flag is set exactly when the driver holds the callback
    registration, the device handle is still the one created, and an open
    port implies an armed bridge: the port is never open with the
    thread-safe function missing or closing. *)
Theorem open_port_implies_armed
  (d : Device) (info : list JsValue) (ops : list Op) (h : RtMidiIn) :
  let s := run ops (snd (constructor d info)) in
  handle s = Some h ->
  device h = d /\
  usingCallback h = configured s /\
  (Driver.isPortOpen h = true -> armed s) /\
  (configured s = true <-> armed s).
Proof.
  intros s Hh.
  destruct (reachInv_run d ops _ (reachInv_constructor d info)) as (Hp & _).
  destruct (lifecycleInv_run ops _ (lifecycleInv_constructor d info)) as ((Hu & Ht) & _).
  fold s in Hp, Hu, Ht. rewrite Hh in Hp, Hu. destruct Hp as [Hd Hc].
  assert (Harm : configured s = true -> armed s).
  { intros Hcfg. split.
    - destruct (handleMessage s) as [f|]; [|congruence].
      exists f. destruct Ht as [Ht _]. rewrite Hcfg in Ht. now split.
    - exists h. split; [exact Hh | congruence]. }
  split; [exact Hd|]. split; [exact Hu|]. split; [auto|].
  split; [exact Harm|].
  intros [_ (h' & Hh' & Hreg)]. congruence.
Qed.

Lemma open_port_implies_armed_witness :
  armed (run [CallOpenPort [JsNumber (NumberOfZ 0)]]
             (snd (constructor twoPorts [JsFunction 7%nat]))).
Proof.
  assert (Hh : handle (run [CallOpenPort [JsNumber (NumberOfZ 0)]]
                         (snd (constructor twoPorts [JsFunction 7%nat])))
               = Some (mkRtMidiIn twoPorts true true (true, true, true)))
    by reflexivity.
  destruct (open_port_implies_armed twoPorts [JsFunction 7%nat]
              [CallOpenPort [JsNumber (NumberOfZ 0)]] _ Hh) as (_ & _ & Ha & _).
  apply Ha. reflexivity.
Defined.

(** X8: over every history of calls, creations and teardowns of the
    bridge pair up: the thread-safe functions created are the ones
    aborted plus the one in force while the flag is set, the same holds
    for registrations and cancellations, and every abort is followed by
    its release; on a destroyed object nothing is left over. *)
Theorem arming_and_teardown_pair_up
  (d : Device) (info : list JsValue) (ops : list Op) :
  let s := run ops (snd (constructor d info)) in
  balanced s /\
  (handle s = None ->
   occurrences isTsfnNew (trace s) = occurrences isTsfnAbort (trace s) /\
   occurrences isTsfnNew (trace s) = occurrences isTsfnRelease (trace s) /\
   occurrences isSetCallback (trace s) = occurrences isCancel (trace s)).
Proof.
  intros s.
  destruct (reachInv_run d ops _ (reachInv_constructor d info)) as (_ & _ & Hb).
  destruct (lifecycleInv_run ops _ (lifecycleInv_constructor d info)) as ((Hu & _) & _).
  fold s in Hb, Hu. split; [exact Hb|].
  intros Hh. rewrite Hh in Hu. destruct Hb as (B1 & B2 & B3).
  rewrite Hu in B1, B2. simpl in B1, B2. clear - B1 B2 B3. lia.
Qed.

Lemma arming_and_teardown_pair_up_witness :
  occurrences isTsfnNew
    (trace (run [CallOpenVirtualPort [JsString "a"]; CallClosePort [];
                 CallOpenPort [JsNumber (NumberOfZ 0)]; CallDestroy []]
              (snd (constructor twoPorts [JsFunction 7%nat]))))
  = occurrences isTsfnRelease
    (trace (run [CallOpenVirtualPort [JsString "a"]; CallClosePort [];
                 CallOpenPort [JsNumber (NumberOfZ 0)]; CallDestroy []]
              (snd (constructor twoPorts [JsFunction 7%nat])))).
Proof.
  destruct (arming_and_teardown_pair_up twoPorts [JsFunction 7%nat]
              [CallOpenVirtualPort [JsString "a"]; CallClosePort [];
               CallOpenPort [JsNumber (NumberOfZ 0)]; CallDestroy []])
    as [_ Hdead].
  destruct (Hdead eq_refl) as (_ & Hrel & _). exact Hrel.
Defined.

(** ** The bridge around a close *)

Lemma CallbackJs_frame (env : bool) (callback data : option nat)
  (s s' : NodeMidiInput) :
  CallbackJs env callback data s = Some s' ->
  handle s' = handle s /\ configured s' = configured s /\
  handleMessage s' = handleMessage s /\ emitMessage s' = emitMessage s /\
  brk s' = brk s /\ freed s' = freed s.
Proof.
  unfold CallbackJs. intros H.
  destruct (match env, callback with
            | true, Some f => _
            | _, _ => Some s
            end) as [s1|] eqn:H1; [|discriminate].
  assert (F1 : handle s1 = handle s /\ configured s1 = configured s /\
               handleMessage s1 = handleMessage s /\ emitMessage s1 = emitMessage s /\
               brk s1 = brk s /\ freed s1 = freed s).
  { destruct env; [|inversion H1; subst; repeat split].
    destruct callback as [f|]; [|inversion H1; subst; repeat split].
    destruct (data ≫= (heap s !!.)) as [[dt [buf|] len|]|]; try discriminate.
    destruct (heap s !! buf) as [[|bs]|]; try discriminate.
    destruct (decide _); [|discriminate].
    inversion H1; subst; repeat split. }
  destruct F1 as (Fh & Fc & Fm & Fe & Fb & Ff).
  simpl in H. destruct data as [p|]; [|inversion H; subst; repeat split; assumption].
  destruct (heap s1 !! p) as [[dt msg len|]|]; try discriminate.
  destruct msg as [buf|]; simpl in H.
  - destruct (heap s1 !! buf) as [[|bs]|]; try discriminate.
    simpl in H. inversion H; subst; simpl. repeat split; assumption.
  - inversion H; subst; simpl. repeat split; assumption.
Qed.

Lemma dispatchOne_closed (s : NodeMidiInput) :
  (handleMessage s = None \/
   exists (cb : option nat) (q : list nat), handleMessage s = Some (mkTSFN cb true q)) ->
  dispatchOne s = Some s.
Proof.
  intros [Hn | (cb & q & Hc)]; unfold dispatchOne; [now rewrite Hn | now rewrite Hc].
Qed.

Lemma dispatchN_closed (n : nat) (s : NodeMidiInput) :
  (handleMessage s = None \/
   exists (cb : option nat) (q : list nat), handleMessage s = Some (mkTSFN cb true q)) ->
  dispatchN n s = Some s.
Proof.
  intros Hc. induction n as [|n IH]; simpl; [reflexivity|].
  now rewrite (dispatchOne_closed s Hc).
Qed.

Lemma close_keeps_envelopes (s : NodeMidiInput) (h : RtMidiIn) :
  handle s = Some h -> consistent s ->
  let s' := closePortAndRemoveCallback s in
  heap s' = heap s /\ brk s' = brk s /\ queueOf s' = queueOf s /\
  calls (trace s') = calls (trace s) /\
  (handleMessage s' = None \/
   exists cb : option nat, handleMessage s' = Some (mkTSFN cb true (queueOf s))).
Proof.
  intros Hh [_ Ht] s'. unfold s'.
  split; [|split; [|split; [|split]]].
  - unfold closePortAndRemoveCallback. rewrite Hh. simpl. now destruct (configured s).
  - unfold closePortAndRemoveCallback. rewrite Hh. simpl. now destruct (configured s).
  - unfold closePortAndRemoveCallback, queueOf. rewrite Hh. simpl.
    destruct (configured s); simpl; [|reflexivity].
    now destruct (handleMessage s).
  - rewrite (trace_close s h Hh), calls_app. destruct (configured s); simpl;
      apply app_nil_r.
  - unfold closePortAndRemoveCallback, queueOf. rewrite Hh. simpl.
    destruct (configured s) eqn:Hcfg; simpl.
    + destruct (handleMessage s) as [f|]; [|now left].
      right. exists (tsfn_callback f). reflexivity.
    + destruct (handleMessage s) as [[cb c q]|]; [|now left].
      right. exists cb. destruct Ht as [Ht _]. simpl in Ht. now rewrite Ht.
Qed.

(** X9: once closePort() has returned, no turn of the event loop hands
    anything to the handler, also when messages were still queued: the
    loop leaves the object as it is, and the finalization of the aborted
    thread-safe function frees every queued envelope without invoking
    the handler. *)
Theorem closed_bridge_delivers_nothing
  (s : NodeMidiInput) (h : RtMidiIn) (info : list JsValue)
  (es : list (double * list byte)) :
  consistent s ->
  handle s = Some h ->
  queueOk s es ->
  let s' := snd (ClosePort info s) in
  (forall n : nat, dispatchN n s' = Some s') /\
  exists s'' : NodeMidiInput,
    finalizeQueue s' = Some s'' /\
    calls (trace s'') = calls (trace s) /\
    (handleMessage s <> None ->
     forall p : nat, p ∈ queueOf s -> heap s'' !! p = None /\ heap s'' !! S p = None).
Proof.
  intros Hc Hh Hok s'.
  assert (Hs' : s' = closePortAndRemoveCallback s)
    by (unfold s', ClosePort; now rewrite Hh).
  destruct (close_keeps_envelopes s h Hh Hc) as (Hheap & Hbrk & Hq & Hcalls & Hclosed).
  rewrite <- Hs' in Hheap, Hbrk, Hq, Hcalls, Hclosed.
  split.
  - intros n. apply dispatchN_closed.
    destruct Hclosed as [Hn | (cb & Hm)]; [now left | right; eauto].
  - destruct Hclosed as [Hn | (cb & Hm)].
    + exists s'. unfold finalizeQueue. rewrite Hn.
      split; [reflexivity|]. split; [exact Hcalls|].
      intros Hsome p Hp. exfalso.
      assert (Hnil : queueOf s' = []) by (unfold queueOf; now rewrite Hn).
      rewrite <- Hq, Hnil in Hp. now apply elem_of_nil in Hp.
    + assert (Hok' : queueOk s' es).
      { destruct Hok as (H1 & H2 & H3). unfold queueOk.
        rewrite Hheap, Hbrk, Hq. auto. }
      destruct (finalizeQueue_drops s' cb (queueOf s) es Hm Hok')
        as (s'' & Hfin & Hc'' & Hfreed).
      exists s''. split; [exact Hfin|]. split; [congruence|].
      intros _. exact Hfreed.
Qed.

Lemma closed_bridge_delivers_nothing_witness :
  dispatchN 3 (snd (ClosePort [] queuedNote)) = Some (snd (ClosePort [] queuedNote)).
Proof.
  assert (Hc : consistent queuedNote) by (split; [reflexivity | split; reflexivity]).
  assert (Hh : handle queuedNote
               = Some (mkRtMidiIn twoPorts true true (true, true, true)))
    by reflexivity.
  assert (Hok : queueOk queuedNote [(Finite 0, noteOn)]).
  { split; [apply NoDup_singleton|]. split.
    - constructor; [split; reflexivity | constructor].
    - intros a Ha. unfold queuedNote. simpl.
      rewrite !lookup_insert_ne by (simpl in Ha; lia). reflexivity. }
  destruct (closed_bridge_delivers_nothing queuedNote _ [] _ Hc Hh Hok) as [Hloop _].
  exact (Hloop 3%nat).
Defined.

(** ** The heap across deliveries *)

Lemma reclaim_free (q : list nat) (p : nat) (hp : gmap nat HeapObj) :
  reclaim q (delete p (delete (S p) hp)) = delete p (delete (S p) (reclaim q hp)).
Proof.
  induction q as [|a q IH]; simpl; [reflexivity|].
  rewrite IH. apply map_eq. intros k.
  rewrite !lookup_delete. repeat case_decide; reflexivity.
Qed.

Lemma reclaim_alloc (q : list nat) (a : nat) (x y : HeapObj) (hp : gmap nat HeapObj) :
  hp !! a = None -> hp !! S a = None ->
  reclaim (q ++ [a]) (<[S a := y]> (<[a := x]> hp)) = reclaim q hp.
Proof.
  intros Ha Hb. unfold reclaim. rewrite foldr_app. simpl.
  rewrite delete_insert_eq, (delete_insert_ne _ (S a) a) by lia.
  rewrite delete_insert_eq, (delete_id _ (S a)) by exact Hb.
  now rewrite (delete_id _ a) by exact Ha.
Qed.

Lemma dispatchOne_exact (s : NodeMidiInput) (f p : nat) (q : list nat)
  (e : double * list byte) :
  handleMessage s = Some (mkTSFN (Some f) false (p :: q)) ->
  holds (heap s) p e ->
  dispatchOne s =
    Some (mkInput (handle s) (configured s) (Some (mkTSFN (Some f) false q))
            (emitMessage s) (delete p (delete (S p) (heap s))) (brk s)
            (trace s ++ [EvCall f (fst e) (snd e); EvDeleteArray (S p); EvDelete p]) (freed s)).
Proof.
  intros Hm Hp. unfold dispatchOne. rewrite Hm. simpl.
  now rewrite (CallbackJs_delivered f _ p e) by exact Hp.
Qed.

Lemma runBridge_reclaim (sched : list BridgeStep) :
  forall (s : NodeMidiInput) (f : nat) (q : list nat) (es : list (double * list byte)),
    handleMessage s = Some (mkTSFN (Some f) false q) ->
    queueOk s es ->
    exists s' q' es',
      runBridge sched s = Some s' /\
      handleMessage s' = Some (mkTSFN (Some f) false q') /\
      queueOk s' es' /\
      reclaim q' (heap s') = reclaim q (heap s) /\
      (brk s <= brk s')%nat.
Proof.
  induction sched as [|b sched IH]; intros s f q es Hm Hok; simpl.
  - exists s, q, es. split; [reflexivity|]. split; [exact Hm|].
    split; [exact Hok|]. split; [reflexivity | lia].
  - destruct b as [dt msg|]; simpl.
    + destruct (Callback_step s f q dt msg es Hm Hok)
        as (s1 & Hcb & Hm' & Hok' & _ & Hheap & Hbrk & _).
      rewrite Hcb. simpl.
      destruct (IH _ f _ _ Hm' Hok') as (s' & q' & es' & Hrun & Hm'' & Hok'' & Hr & Hb).
      exists s', q', es'. split; [exact Hrun|]. split; [exact Hm''|].
      split; [exact Hok''|]. destruct Hok as (_ & _ & Hfresh). split.
      * rewrite Hr, Hheap. apply reclaim_alloc; apply Hfresh; lia.
      * rewrite Hbrk in Hb. lia.
    + destruct q as [|p q].
      * assert (Hd : dispatchOne s = Some s) by (unfold dispatchOne; now rewrite Hm).
        rewrite Hd. simpl. now apply (IH s f [] es).
      * destruct es as [|e es].
        { destruct Hok as (_ & Hall & _).
          rewrite (queueOf_live _ _ _ _ Hm) in Hall. inversion Hall. }
        destruct (dispatchOne_step s f p q e es Hm Hok) as (s1 & Hd & Hm1 & Hok1 & _).
        assert (Hp : holds (heap s) p e).
        { destruct Hok as (_ & Hall & _).
          rewrite (queueOf_live _ _ _ _ Hm) in Hall. now inversion Hall. }
        pose proof (dispatchOne_exact s f p q e Hm Hp) as Hex.
        rewrite Hd in Hex. injection Hex as Hex.
        rewrite Hd. simpl.
        destruct (IH _ f _ _ Hm1 Hok1) as (s' & q' & es' & Hrun & Hm'' & Hok'' & Hr & Hb).
        exists s', q', es'. split; [exact Hrun|]. split; [exact Hm''|].
        split; [exact Hok''|]. rewrite Hr, Hex in *. simpl in *.
        split; [apply reclaim_free | exact Hb].
Qed.

Lemma drain_reclaim (es : list (double * list byte)) :
  forall (s : NodeMidiInput) (f : nat) (q : list nat),
    handleMessage s = Some (mkTSFN (Some f) false q) ->
    queueOk s es ->
    exists s',
      drain s = Some s' /\ heap s' = reclaim q (heap s) /\ brk s' = brk s.
Proof.
  unfold drain.
  induction es as [|e es IH]; intros s f q Hm Hok;
    pose proof Hok as (_ & Hall & _);
    rewrite (queueOf_live _ _ _ _ Hm) in Hall |- *;
    inversion Hall as [|p e0 q0 es0 Hp Hall' Hq]; subst; simpl.
  - exists s. repeat split.
  - destruct (dispatchOne_step s f p q0 e es Hm Hok) as (s1 & Hd & Hm1 & Hok1 & _).
    pose proof (dispatchOne_exact s f p q0 e Hm Hp) as Hex.
    rewrite Hd in Hex. injection Hex as Hex.
    rewrite Hd. simpl.
    destruct (IH s1 f q0 Hm1 Hok1) as (s' & Hrun & Hheap & Hbrk).
    rewrite (queueOf_live _ _ _ _ Hm1) in Hrun.
    exists s'. split; [exact Hrun|]. rewrite Hheap, Hbrk, Hex. simpl.
    split; [apply reclaim_free | reflexivity].
Qed.

(** X10: on a live bridge, whatever way deliveries and loop turns
    interleave, once the loop has emptied the queue the heap is the heap
    of the start without the envelopes that were pending then:
    everything Callback allocated has been freed, and with nothing
    pending at the start the heap is exactly what it was. *)
Theorem drained_bridge_leaves_no_envelope
  (s : NodeMidiInput) (f : nat) (q : list nat) (es : list (double * list byte))
  (sched : list BridgeStep) :
  handleMessage s = Some (mkTSFN (Some f) false q) ->
  queueOk s es ->
  exists s1 s2 : NodeMidiInput,
    runBridge sched s = Some s1 /\
    drain s1 = Some s2 /\
    heap s2 = reclaim q (heap s) /\
    (q = [] -> heap s2 = heap s).
Proof.
  intros Hm Hok.
  destruct (runBridge_reclaim sched s f q es Hm Hok)
    as (s1 & q1 & es1 & Hrun & Hm1 & Hok1 & Hr & _).
  destruct (drain_reclaim es1 s1 f q1 Hm1 Hok1) as (s2 & Hdrain & Hheap & _).
  exists s1, s2. split; [exact Hrun|]. split; [exact Hdrain|].
  split; [congruence|]. intros ->. rewrite Hheap, Hr. reflexivity.
Qed.

Lemma drained_bridge_leaves_no_envelope_witness :
  exists s1 s2 : NodeMidiInput,
    runBridge [Deliver (Finite 0) noteOn; Dispatch; Deliver (Finite 1) []]
      (opened twoPorts) = Some s1 /\
    drain s1 = Some s2 /\
    heap s2 = heap (opened twoPorts).
Proof.
  assert (Hok : queueOk (opened twoPorts) []).
  { split; [constructor|]. split; [constructor|]. intros a _. reflexivity. }
  destruct (drained_bridge_leaves_no_envelope (opened twoPorts) 7 [] []
              [Deliver (Finite 0) noteOn; Dispatch; Deliver (Finite 1) []]
              eq_refl Hok)
    as (s1 & s2 & Hrun & Hdrain & _ & Hheap).
  exists s1, s2. split; [exact Hrun|]. split; [exact Hdrain | exact (Hheap eq_refl)].
Defined.

(** ** The whole system *)

Ltac crack :=
  repeat (simpl;
          match goal with
          | |- context [match ?x with _ => _ end] => destruct x eqn:?
          end).

Lemma invoke_frame (o : Op) (s : NodeMidiInput) :
  let s' := snd (invoke o s) in
  heap s' = heap s /\ brk s' = brk s /\ emitMessage s' = emitMessage s /\
  freed s' = freed s /\
  calls (trace s') = calls (trace s) /\
  (handle s = None -> handle s' = None) /\
  (handleMessage s' = handleMessage s \/
   handleMessage s' = tsfn_abort (handleMessage s) \/
   (handle s <> None /\ handleMessage s' = Some (mkTSFN (emitMessage s) false []))).
Proof.
  destruct s as [h c t em hp b tr fr].
  destruct o; simpl;
    unfold GetPortCount, GetPortName, OpenPort, OpenVirtualPort, ClosePort, Destroy,
      IsPortOpen, IgnoreTypes, setupCallback, closePortAndRemoveCallback, throw;
    crack; simpl; rewrite ?calls_app; simpl; rewrite ?app_nil_r;
    (split; [reflexivity|]); (split; [reflexivity|]); (split; [reflexivity|]);
    (split; [reflexivity|]);
    (split; [reflexivity|]); (split; [try discriminate; auto|]);
    first [ left; reflexivity
          | right; left; reflexivity
          | right; right; split; [discriminate | reflexivity] ].
Qed.

Lemma consistent_invoke (o : Op) (s : NodeMidiInput) :
  consistent s -> consistent (snd (invoke o s)).
Proof.
  intros Hc. destruct o as [info|info|info|info|info|info|info|info|]; simpl.
  - unfold GetPortCount, throw. destruct (handle s); exact Hc.
  - unfold GetPortName, throw. destruct (handle s) as [h|]; [|exact Hc].
    destruct info as [|[] ?]; try exact Hc.
    simpl. destruct (Driver.getPortName _ h); exact Hc.
  - unfold OpenPort, throw. destruct (handle s) as [h|] eqn:Hh; [|exact Hc].
    destruct info as [|[] ?]; try exact Hc.
    simpl. destruct (_ >=? _); [exact Hc|].
    destruct (armed_setupCallback s h Hc Hh) as (t & h1 & Ht & Hcl & Hh1 & Hu & _).
    assert (Hs : consistent (setupCallback s)).
    { unfold setupCallback in *. destruct (configured s) eqn:Hcfg; [exact Hc|].
      unfold consistent. simpl. rewrite Hh. simpl. repeat split. }
    simpl. rewrite Hh1. simpl. unfold Driver.openPort.
    destruct (dev_openPort _ _); simpl; [|exact Hs].
    destruct Hs as [Hs1 Hs2]. rewrite Hh1 in Hs1. split; [exact Hs1 | exact Hs2].
  - unfold OpenVirtualPort, throw. destruct (handle s) as [h|] eqn:Hh; [|exact Hc].
    destruct info as [|[] ?]; try exact Hc.
    destruct (armed_setupCallback s h Hc Hh) as (t & h1 & Ht & Hcl & Hh1 & Hu & _).
    assert (Hs : consistent (setupCallback s)).
    { unfold setupCallback in *. destruct (configured s) eqn:Hcfg; [exact Hc|].
      unfold consistent. simpl. rewrite Hh. simpl. repeat split. }
    simpl. rewrite Hh1. simpl. unfold Driver.openVirtualPort.
    destruct (dev_openVirtualPort _ _); simpl; [|exact Hs].
    destruct Hs as [Hs1 Hs2]. rewrite Hh1 in Hs1. split; [exact Hs1 | exact Hs2].
  - unfold ClosePort, throw. destruct (handle s) as [h|] eqn:Hh; [|exact Hc].
    simpl. unfold closePortAndRemoveCallback. rewrite Hh. simpl.
    destruct Hc as [Hu Ht]. rewrite Hh in Hu.
    destruct (configured s) eqn:Hcfg; unfold consistent; simpl.
    + destruct (handleMessage s) as [t|]; [|discriminate]. simpl.
      destruct Ht as [_ Ht]. repeat split. exact Ht.
    + rewrite Hcfg. split; [exact Hu | exact Ht].
  - unfold Destroy. destruct (handle s) as [h|] eqn:Hh; [|exact Hc].
    simpl. unfold closePortAndRemoveCallback. rewrite Hh. simpl.
    destruct Hc as [Hu Ht]. rewrite Hh in Hu.
    destruct (configured s) eqn:Hcfg; unfold consistent; simpl.
    + destruct (handleMessage s) as [t|]; [|discriminate]. simpl.
      destruct Ht as [_ Ht]. repeat split. exact Ht.
    + rewrite Hcfg. split; [reflexivity | exact Ht].
  - unfold IsPortOpen, throw. destruct (handle s); exact Hc.
  - unfold IgnoreTypes, throw. destruct (handle s) as [h|] eqn:Hh; [|exact Hc].
    destruct info as [|[] [|[] [|[] [|? ?]]]]; try exact Hc.
    simpl. destruct Hc as [Hu Ht]. rewrite Hh in Hu. split; [exact Hu | exact Ht].
  - unfold closePortAndRemoveCallback. destruct (handle s) as [h|] eqn:Hh; [|exact Hc].
    simpl. destruct Hc as [Hu Ht]. rewrite Hh in Hu.
    destruct (configured s) eqn:Hcfg; unfold consistent; simpl.
    + destruct (handleMessage s) as [t|]; [|discriminate]. simpl.
      destruct Ht as [_ Ht]. repeat split. exact Ht.
    + rewrite Hcfg. split; [exact Hu | exact Ht].
Qed.

Lemma queueOk_same (s s' : NodeMidiInput) (es : list (double * list byte)) :
  heap s' = heap s -> brk s' = brk s -> queueOf s' = queueOf s ->
  queueOk s es -> queueOk s' es.
Proof. intros Hh Hb Hq Hok. unfold queueOk. now rewrite Hh, Hb, Hq. Qed.

Lemma queueOk_reset (s s' : NodeMidiInput) (es : list (double * list byte)) :
  (forall a : nat, heap s !! a = None -> heap s' !! a = None) ->
  brk s' = brk s -> queueOf s' = [] ->
  queueOk s es -> queueOk s' [].
Proof.
  intros Hh Hb Hq (_ & _ & Hfresh). unfold queueOk. rewrite Hq, Hb.
  split; [constructor|]. split; [constructor|]. auto.
Qed.

Lemma sublist_drop_pending {A : Type} (l k m : list A) :
  (l ++ k) `sublist_of` m -> (l ++ []) `sublist_of` m.
Proof.
  intros H. transitivity (l ++ k); [|exact H].
  apply sublist_app; [reflexivity | apply sublist_nil_l].
Qed.

Lemma sysInv_api (f : nat) (D : list (double * list byte)) (o : Op) (s : NodeMidiInput) :
  sysInv f D s -> sysInv f D (snd (invoke o s)).
Proof.
  intros (Hcb & Hem & Hcons & Hlive & es & Hok & Hsub).
  destruct (invoke_frame o s)
    as (Hheap & Hbrk & Hemit & Hfreed & Hcalls & Hdead & Htsfn).
  pose proof (consistent_invoke o s Hcons) as Hcons'.
  assert (Hem' : handle (snd (invoke o s)) <> None -> emitMessage s = Some f).
  { intros Hh. apply Hem. intros Hn. now apply Hh, Hdead. }
  destruct Htsfn as [Hsame | [Habort | [Hlv Hnew]]].
  - split; [now rewrite Hsame|]. split; [now rewrite Hemit|].
    split; [exact Hcons'|]. split; [congruence|].
    exists es. split; [|now rewrite Hcalls].
    apply (queueOk_same s); auto. unfold queueOf. now rewrite Hsame.
  - split; [|split; [now rewrite Hemit|]].
    + rewrite Habort. now destruct (handleMessage s).
    + split; [exact Hcons'|]. split; [congruence|].
      exists es. split; [|now rewrite Hcalls].
      apply (queueOk_same s); auto. unfold queueOf. rewrite Habort.
      now destruct (handleMessage s).
  - split; [|split; [now rewrite Hemit|]].
    + rewrite Hnew. simpl. auto.
    + split; [exact Hcons'|]. split; [congruence|].
      exists []. split; [|rewrite Hcalls; now apply (sublist_drop_pending _ (map (tag f) es))].
      apply (queueOk_reset s _ es); auto.
      * intros a. now rewrite Hheap.
      * unfold queueOf. now rewrite Hnew.
Qed.

Lemma sysInv_driver (f : nat) (D : list (double * list byte)) (dt : double)
  (msg : list byte) (s : NodeMidiInput) :
  sysInv f D s ->
  exists s', sysStep (DriverCalls dt msg) s = Some s' /\
             sysInv f (D ++ [(dt, msg)]) s'.
Proof.
  intros Hinv. pose proof Hinv as (Hcb & Hem & Hcons & Hlive & es & Hok & Hsub).
  assert (Hskip : sysInv f (D ++ [(dt, msg)]) s).
  { split; [exact Hcb|]. split; [exact Hem|]. split; [exact Hcons|].
    split; [exact Hlive|]. exists es. split; [exact Hok|].
    rewrite map_app. now apply sublist_inserts_r. }
  unfold sysStep.
  destruct (handle s) as [h|] eqn:Hh; [|exists s; now split].
  destruct (usingCallback h) eqn:Hreg; [|exists s; now split].
  pose proof Hcons as [Hu Ht]. rewrite Hh, Hreg in Hu.
  destruct (handleMessage s) as [[cb c q]|] eqn:Hm; [|congruence].
  simpl in Hcb, Ht. destruct Ht as [Hcl Hcbem]. rewrite <- Hu in Hcl. simpl in Hcl.
  subst cb c.
  destruct (Callback_step s f q dt msg es Hm Hok)
    as (s1 & Hrun & Hm1 & Hok1 & Ht1 & _ & _ & Hh1 & Hc1 & He1 & Hf1).
  exists s1. split; [exact Hrun|].
  split; [now rewrite Hm1|]. split; [now rewrite Hh1, He1|].
  split; [|split; [congruence|]].
  - unfold consistent. rewrite Hh1, Hc1, Hm1, He1, Hh, <- Hu. simpl.
    split; [exact Hreg | split; [reflexivity | exact Hcbem]].
  - exists (es ++ [(dt, msg)]). split; [exact Hok1|].
    rewrite Ht1, !map_app, app_assoc. apply sublist_app; [exact Hsub | reflexivity].
Qed.

Lemma sysInv_loop (f : nat) (D : list (double * list byte)) (s : NodeMidiInput) :
  sysInv f D s -> exists s', dispatchOne s = Some s' /\ sysInv f D s'.
Proof.
  intros Hinv. pose proof Hinv as (Hcb & Hem & Hcons & Hlive & es & Hok & Hsub).
  destruct (handleMessage s) as [[cb [|] q]|] eqn:Hm.
  - exists s. split; [|exact Hinv]. apply dispatchOne_closed. right. eauto.
  - simpl in Hcb. subst cb. destruct q as [|p q].
    + exists s. split; [|exact Hinv]. unfold dispatchOne. now rewrite Hm.
    + destruct es as [|e es].
      { destruct Hok as (_ & Hall & _).
        rewrite (queueOf_live _ _ _ _ Hm) in Hall. inversion Hall. }
      assert (Hp : holds (heap s) p e).
      { destruct Hok as (_ & Hall & _).
        rewrite (queueOf_live _ _ _ _ Hm) in Hall. now inversion Hall. }
      destruct (dispatchOne_step s f p q e es Hm Hok) as (s1 & Hd & Hm1 & Hok1 & Ht1).
      pose proof (dispatchOne_exact s f p q e Hm Hp) as Hex.
      rewrite Hd in Hex. injection Hex as Hex.
      exists s1. split; [exact Hd|].
      split; [now rewrite Hm1|]. split; [rewrite Hex; exact Hem|].
      split; [|split; [rewrite Hex; exact Hlive|]].
      * destruct Hcons as [Hu Ht]. rewrite Hm in Ht.
        rewrite Hex. unfold consistent. simpl. split; [exact Hu | exact Ht].
      * exists es. split; [exact Hok1|].
        rewrite Ht1, calls_app. simpl. rewrite <- app_assoc. exact Hsub.
  - exists s. split; [|exact Hinv]. apply dispatchOne_closed. now left.
Qed.

Lemma emptyQueue_frame (q : list nat) :
  forall s s' : NodeMidiInput,
    emptyQueue q s = Some s' ->
    handle s' = handle s /\ configured s' = configured s /\
    handleMessage s' = handleMessage s /\
    emitMessage s' = emitMessage s /\ brk s' = brk s /\ freed s' = freed s.
Proof.
  induction q as [|p q IH]; intros s s' H; simpl in H.
  - inversion H. subst. repeat split.
  - destruct (CallbackJs false None (Some p) s) as [s1|] eqn:H1; [|discriminate].
    simpl in H.
    destruct (CallbackJs_frame _ _ _ _ _ H1) as (F1 & F2 & F3 & F4 & F5 & F6).
    destruct (IH s1 s' H) as (G1 & G2 & G3 & G4 & G5 & G6).
    repeat split; congruence.
Qed.

Lemma sysInv_final (f : nat) (D : list (double * list byte)) (s : NodeMidiInput) :
  sysInv f D s -> exists s', finalizeQueue s = Some s' /\ sysInv f D s'.
Proof.
  intros Hinv. pose proof Hinv as (Hcb & Hem & Hcons & Hlive & es & Hok & Hsub).
  destruct (handleMessage s) as [[cb [|] q]|] eqn:Hm.
  - pose proof Hok as (Hnd & Hall & Hfresh).
    rewrite (queueOf_live _ _ _ _ Hm) in Hnd, Hall.
    set (s0 := with_handleMessage (Some (mkTSFN cb true [])) s).
    destruct (emptyQueue_frees es q s0 Hnd Hall) as (s' & Hrun & Hc & Hnone & _).
    destruct (emptyQueue_frame q s0 s' Hrun) as (F1 & F2 & F3 & F4 & F5 & F6).
    exists (with_handleMessage None s').
    split; [unfold finalizeQueue; rewrite Hm; simpl; fold s0; now rewrite Hrun|].
    split; [exact I|]. split; [simpl; rewrite F1, F4; exact Hem|].
    split; [|split; [simpl; rewrite F6; exact Hlive|]].
    + destruct Hcons as [Hu Ht]. rewrite Hm in Ht. destruct Ht as [Hcl _].
      simpl in Hcl. unfold consistent. simpl. rewrite F1, F2. simpl.
      assert (Hoff : configured s = false) by (now destruct (configured s)).
      split; [|exact Hoff]. exact Hu.
    + exists []. split.
      * apply (queueOk_reset s _ es); auto.
      * simpl. rewrite Hc. now apply (sublist_drop_pending _ (map (tag f) es)).
  - exists s. split; [|exact Hinv]. unfold finalizeQueue. now rewrite Hm.
  - exists s. split; [|exact Hinv]. unfold finalizeQueue. now rewrite Hm.
Qed.

Lemma sysInv_run (xs : list Step) :
  forall (f : nat) (D : list (double * list byte)) (s : NodeMidiInput),
    sysInv f D s ->
    exists s', runSystem xs s = Some s' /\ sysInv f (D ++ driverCalls xs) s'.
Proof.
  induction xs as [|x xs IH]; intros f D s Hinv; simpl.
  - exists s. rewrite app_nil_r. now split.
  - destruct x as [o|dt msg| |].
    + pose proof Hinv as (_ & _ & _ & Hlive & _).
      simpl. rewrite Hlive. simpl. apply IH. now apply sysInv_api.
    + destruct (sysInv_driver f D dt msg s Hinv) as (s1 & Hd & Hinv1).
      rewrite Hd. simpl.
      destruct (IH f (D ++ [(dt, msg)]) s1 Hinv1) as (s' & Hrun & Hinv').
      exists s'. split; [exact Hrun|]. now rewrite <- app_assoc in Hinv'.
    + destruct (sysInv_loop f D s Hinv) as (s1 & Hd & Hinv1).
      simpl. rewrite Hd. simpl. now apply IH.
    + destruct (sysInv_final f D s Hinv) as (s1 & Hd & Hinv1).
      simpl. rewrite Hd. simpl. now apply IH.
Qed.

(** X11: while the object lives and the driver invokes its callback only
    while one is registered with it, whatever way the consumer's calls,
    the deliveries, the turns of the event loop and the finalization of
    aborted thread-safe functions interleave after construction, every
    step is defined: no delivery finds the thread-safe function missing
    and no null or dangling envelope is read or freed; and the handler
    has been invoked only with messages the driver offered, each at most
    once and in the order of delivery, with the timestamp and bytes of
    the delivery. *)
Theorem handler_sees_deliveries_at_most_once
  (d : Device) (f : nat) (rest : list JsValue) (xs : list Step) :
  exists s' : NodeMidiInput,
    runSystem xs (snd (constructor d (JsFunction f :: rest))) = Some s' /\
    calls (trace s') `sublist_of` map (tag f) (driverCalls xs) /\
    (forall h : RtMidiIn, handle s' = Some h -> usingCallback h = true ->
       exists q : list nat, handleMessage s' = Some (mkTSFN (Some f) false q)).
Proof.
  assert (Hinit : sysInv f [] (snd (constructor d (JsFunction f :: rest)))).
  { unfold constructor, throw, Driver.create. destruct (dev_init d); simpl.
    - split; [exact I|]. split; [reflexivity|].
      split; [split; reflexivity|]. split; [reflexivity|].
      exists []. split; [|constructor].
      split; [constructor|]. split; [constructor|]. intros a _. reflexivity.
    - split; [exact I|]. split; [intros H; now destruct H|].
      split; [split; reflexivity|]. split; [reflexivity|].
      exists []. split; [|constructor].
      split; [constructor|]. split; [constructor|]. intros a _. reflexivity. }
  destruct (sysInv_run xs f [] _ Hinit)
    as (s' & Hrun & Hcb & _ & [Hu Ht] & _ & es & _ & Hsub).
  exists s'. split; [exact Hrun|]. split.
  - simpl in Hsub.
    transitivity (calls (trace s') ++ map (tag f) es); [|exact Hsub].
    apply sublist_inserts_r. reflexivity.
  - intros h Hh Hreg. rewrite Hh, Hreg in Hu.
    destruct (handleMessage s') as [[cb c q]|]; [|congruence].
    simpl in Hcb, Ht. destruct Ht as [Hcl _]. rewrite <- Hu in Hcl. simpl in Hcl.
    subst. now exists q.
Qed.

(** ** A delivery that finds the bridge closed *)

Lemma holds_below_brk (s : NodeMidiInput) (es : list (double * list byte)) (p : nat) :
  queueOk s es -> p ∈ queueOf s -> (S p < brk s)%nat.
Proof.
  intros (_ & Hall & Hfresh) Hin.
  apply list_elem_of_lookup in Hin as [i Hi].
  destruct (Forall2_lookup_l _ _ _ _ _ Hall Hi) as (e & _ & [_ Hb]).
  destruct (decide (S p < brk s)%nat) as [Hlt|Hge]; [exact Hlt|].
  rewrite Hfresh in Hb by lia. discriminate.
Qed.

Lemma emptyQueue_keeps (es : list (double * list byte)) :
  forall (q : list nat) (s s' : NodeMidiInput) (a : nat),
    Forall2 (holds (heap s)) q es ->
    NoDup q ->
    (forall p : nat, p ∈ q -> a <> p /\ a <> S p) ->
    emptyQueue q s = Some s' ->
    heap s' !! a = heap s !! a.
Proof.
  induction es as [|e es IH]; intros q s s' a Hall Hnd Hout Hrun;
    inversion Hall as [|p e0 q0 es0 Hp Hall' Hq]; subst; simpl in Hrun.
  - now inversion Hrun.
  - apply NoDup_cons in Hnd as [Hnin Hnd].
    pose proof Hp as [Hp1 Hp2].
    rewrite (CallbackJs_aborted false None s p (S p) _ _ _ (or_introl eq_refl) Hp1 Hp2)
      in Hrun.
    simpl in Hrun.
    destruct (Hout p) as [Ha1 Ha2]; [left|].
    set (s1 := mkInput (handle s) (configured s) (handleMessage s) (emitMessage s)
                 (delete p (delete (S p) (heap s))) (brk s)
                 (trace s ++ [EvDeleteArray (S p); EvDelete p]) (freed s)) in Hrun.
    rewrite (IH q0 s1 s' a (holds_all_after_free _ p e q0 es Hp Hnin Hall') Hnd);
      [| intros p' Hin; apply Hout; now right | exact Hrun].
    simpl. now rewrite !lookup_delete_ne by auto.
Qed.

Lemma Callback_refused (s : NodeMidiInput) (dt : double) (msg : list byte)
  (es : list (double * list byte)) (cb : option nat) (q : list nat) :
  handleMessage s = Some (mkTSFN cb true q) ->
  queueOk s es ->
  exists s' : NodeMidiInput,
    Callback dt msg s = Some s' /\
    handleMessage s' = handleMessage s /\
    queueOk s' es /\
    trace s' = trace s /\
    heap s' !! brk s = Some (HMidiMessage dt (Some (S (brk s))) (length msg)) /\
    heap s' !! S (brk s) = Some (HBytes msg).
Proof.
  intros Hm (Hnd & Hall & Hfresh).
  assert (Ha : heap s !! brk s = None) by (apply Hfresh; lia).
  assert (Hb : heap s !! S (brk s) = None) by (apply Hfresh; lia).
  unfold Callback. rewrite Hm. simpl. rewrite firstn_all.
  eexists. split; [reflexivity|]. simpl.
  split; [reflexivity|]. split; [|split; [reflexivity|]].
  - unfold queueOk, queueOf. simpl.
    rewrite (queueOf_live _ _ _ _ Hm) in Hnd, Hall.
    split; [exact Hnd|]. split.
    + now apply holds_all_after_alloc.
    + intros a Hge. rewrite !lookup_insert_ne by lia. apply Hfresh. lia.
  - rewrite lookup_insert_ne, !lookup_insert_eq by lia. split; reflexivity.
Qed.

(** X12: when Callback runs while the thread-safe function has been
    aborted and is not yet finalized, the refusal that NonBlockingCall
    reports is ignored: the envelope Callback allocated is not queued, no
    later loop turn or finalization hands it to the handler, and none
    frees it.  With no thread-safe function behind the member the call
    aborts the process. *)
Theorem late_delivery_is_dropped_and_kept
  (s : NodeMidiInput) (deltaTime : double) (message : list byte)
  (es : list (double * list byte)) (cb : option nat) (q : list nat) :
  handleMessage s = Some (mkTSFN cb true q) ->
  queueOk s es ->
  Callback deltaTime message (with_handleMessage None s) = None /\
  exists s' : NodeMidiInput,
    Callback deltaTime message s = Some s' /\
    queueOf s' = queueOf s /\
    trace s' = trace s /\
    (forall n : nat, dispatchN n s' = Some s') /\
    exists s'' : NodeMidiInput,
      finalizeQueue s' = Some s'' /\
      calls (trace s'') = calls (trace s) /\
      heap s'' !! brk s
        = Some (HMidiMessage deltaTime (Some (S (brk s))) (length message)) /\
      heap s'' !! S (brk s) = Some (HBytes message).
Proof.
  intros Hc Hok. split; [reflexivity|].
  destruct (Callback_refused s deltaTime message es cb q Hc Hok)
    as (s' & Hrun & Hm & Hok' & Ht & Hcell).
  rewrite Hc in Hm.
  assert (Hq : queueOf s' = queueOf s)
    by (now rewrite (queueOf_live _ _ _ _ Hm), (queueOf_live _ _ _ _ Hc)).
  exists s'. split; [exact Hrun|]. split; [exact Hq|]. split; [exact Ht|].
  split; [intros n; apply dispatchN_closed; right; eauto|].
  pose proof Hok' as (Hnd & Hall & _).
  rewrite (queueOf_live _ _ _ _ Hm) in Hnd, Hall.
  set (s0 := with_handleMessage (Some (mkTSFN cb true [])) s').
  destruct (emptyQueue_frees es q s0 Hnd Hall) as (s1 & Hrun1 & Hcalls & _ & _).
  assert (Hout : forall a : nat, (brk s <= a)%nat ->
                   forall p : nat, p ∈ q -> a <> p /\ a <> S p).
  { intros a Ha p Hin.
    assert (Hlt : (S p < brk s)%nat).
    { apply (holds_below_brk s es); [exact Hok|].
      rewrite (queueOf_live _ _ _ _ Hc). exact Hin. }
    lia. }
  exists (with_handleMessage None s1).
  split; [unfold finalizeQueue; rewrite Hm; simpl; fold s0; now rewrite Hrun1|].
  split; [simpl; rewrite Hcalls; simpl; now rewrite Ht|].
  simpl.
  rewrite (emptyQueue_keeps es q s0 s1 (brk s) Hall Hnd (Hout _ (Nat.le_refl _)) Hrun1).
  rewrite (emptyQueue_keeps es q s0 s1 (S (brk s)) Hall Hnd
             (Hout _ (Nat.le_succ_diag_r _)) Hrun1).
  exact Hcell.
Qed.

Lemma late_delivery_is_dropped_and_kept_witness :
  exists s' : NodeMidiInput,
    Callback (Finite 0) noteOn (snd (ClosePort [] (opened twoPorts))) = Some s' /\
    queueOf s' = [].
Proof.
  assert (Hok : queueOk (snd (ClosePort [] (opened twoPorts))) []).
  { split; [constructor|]. split; [constructor|]. intros a _. reflexivity. }
  destruct (late_delivery_is_dropped_and_kept (snd (ClosePort [] (opened twoPorts)))
              (Finite 0) noteOn [] (Some 7%nat) [] eq_refl Hok)
    as (_ & s' & Hrun & Hq & _).
  exists s'. split; [exact Hrun | exact Hq].
Defined.
